(** * Apprenda+ game page: session engine of [src/App.tsx]

    A shallow embedding of the [GamePage] component: the question queue built
    by [shuffleArray], the React state and refs of the component, its event
    handlers ([handleDrop], [handleCloseFeedback], [resetAttemptState]), the
    question effect with [generateIllustration], and the browser facilities
    the handlers call (timers, alert, vibration, speech, console). *)

From stdpp Require Import base list strings gmap.
From Stdlib Require Import ZArith Lia.


(** ** Data model (types.ts) *)

Inductive Subject := Math | Portuguese.
Inductive Level := One | Two.

#[global] Instance Subject_eq_dec : EqDecision Subject.
Proof. solve_decision. Defined.
#[global] Instance Level_eq_dec : EqDecision Level.
Proof. solve_decision. Defined.

(** [Option] of types.ts; the two optional fields are [option]s. *)
Record AnswerOption := mkOption {
  value : string;
  color : string;
  opt_illustration : option string;
  opt_alt : option string
}.

Record Illustration := mkIllustration { src : string; alt : string }.

Inductive MediaType := video | gif.
Record CelebrationMedia := mkMedia {
  media_type : MediaType;
  media_src : string;
  media_alt : string
}.

Record Question := mkQuestion {
  id : string;
  subject : Subject;
  level : Level;
  prompt : string;
  illustration : Illustration;
  options : list AnswerOption;
  correctAnswer : string;
  hint : string;
  celebrationMedia : CelebrationMedia
}.

Record Settings := mkSettings {
  isTtsEnabled : bool;
  isHighContrast : bool;
  reduceMotion : bool
}.

(** ** shuffleArray (App.tsx, lines 248-255) *)

(** One value of [Math.random()], a number in the interval [0, 1): the
    fraction [num / (num + gap + 1)].  Every rational of the interval has this
    form and no value outside of it has. *)
Record Draw := mkDraw { num : nat; gap : nat }.

(** [Math.floor(r * n)] for a draw [r]. *)
Definition floor_mul (r : Draw) (n : nat) : nat :=
  (num r * n) / (num r + gap r + 1).

Section Shuffle.
Context {T : Type}.

(** [[a[i], a[j]] = [a[j], a[i]]]: the right-hand side is read first, then
    [a[i]] and [a[j]] are written in this order.  Both indices are inside
    the array at every call of the loop below ([swap_in_range]); outside of
    it the array is returned as it is. *)
Definition swap (a : list T) (i j : nat) : list T :=
  match a !! j, a !! i with
  | Some x, Some y => <[j:=y]> (<[i:=x]> a)
  | _, _ => a
  end.

(** The loop [for (let i = ...; i > 0; i--)]; [k] counts the calls of
    [Math.random] made so far and [random k] is the value of call [k]. *)
Fixpoint shuffle_loop (random : nat → Draw) (k i : nat) (a : list T) : list T :=
  match i with
  | 0 => a
  | S i' =>
      let j := floor_mul (random k) (i + 1) in
      shuffle_loop random (S k) i' (swap a i j)
  end.

(** [newArray = [...array]] is the list itself: lists are values. *)
Definition shuffleArray (random : nat → Draw) (array : list T) : list T :=
  shuffle_loop random 0 (length array - 1) array.
End Shuffle.

(** Where a swap of positions [i] and [j] reads position [k] from. *)
Definition transpose (i j k : nat) : nat :=
  if decide (k = j) then i else if decide (k = i) then j else k.

(** The [questions] memo of [GamePage] (lines 258-261).  [ALL_QUESTIONS] comes
    from data.ts and is a parameter here. *)
Definition questions_of (random : nat → Draw) (ALL_QUESTIONS : list Question)
    (subj : Subject) (lvl : Level) : list Question :=
  let filtered := filter (λ q, subject q = subj ∧ level q = lvl) ALL_QUESTIONS in
  shuffleArray random filtered.

#[global] Instance AnswerOption_eq_dec : EqDecision AnswerOption.
Proof. solve_decision. Defined.
#[global] Instance Illustration_eq_dec : EqDecision Illustration.
Proof. solve_decision. Defined.
#[global] Instance MediaType_eq_dec : EqDecision MediaType.
Proof. solve_decision. Defined.
#[global] Instance CelebrationMedia_eq_dec : EqDecision CelebrationMedia.
Proof. solve_decision. Defined.
#[global] Instance Question_eq_dec : EqDecision Question.
Proof. solve_decision. Defined.

(** ** Component state, refs and the browser *)

Inductive Page := Home | LevelSelection | GamePlay | SettingsPage.

(** [{correct: boolean, show: boolean}] of the [feedback] state. *)
Record Feedback := mkFeedback { correct : bool; show : bool }.

(** What the component asks of its surroundings, in the order of the calls. *)
Inductive Effect :=
| Speak (text : string)            (* synth.cancel(); synth.speak(utterance) *)
| Vibrate (pattern : list nat)     (* navigator.vibrate(...) *)
| Alert (shown total : nat)        (* alert(`Fim de jogo! ... ${shown}/${total}`) *)
| ConsoleError                     (* console.error("Failed to generate ...") *)
| GenerateContent (q : Question).  (* first call of the illustration request *)

(** A timer made by [window.setTimeout]; its callback is always
    [() => setShowHint(true)], the only one the component registers. *)
Record Timer := mkTimer { handle : nat; delay : nat }.

Record Game := mkGame {
  (* App *)
  page : Page;
  (* useState of GamePage *)
  currentIndex : nat;
  score : nat;
  isDragOver : bool;
  feedback : option Feedback;
  showHint : bool;
  illustrationUrl : option string;
  isGenerating : bool;
  (* useRef of GamePage *)
  hintTimeoutRef : option nat;
  isMounted : bool;
  (* browser *)
  timers : list Timer;          (* scheduled, neither fired nor cleared *)
  nextTimer : nat;              (* the handle the next setTimeout returns *)
  inflight : list Question;     (* illustration requests not yet settled *)
  effects : list Effect
}.

Definition setPage (p : Page) (g : Game) : Game :=
  mkGame p (currentIndex g) (score g) (isDragOver g) (feedback g) (showHint g)
    (illustrationUrl g) (isGenerating g) (hintTimeoutRef g) (isMounted g)
    (timers g) (nextTimer g) (inflight g) (effects g).
Definition setCurrentIndex (f : nat → nat) (g : Game) : Game :=
  mkGame (page g) (f (currentIndex g)) (score g) (isDragOver g) (feedback g) (showHint g)
    (illustrationUrl g) (isGenerating g) (hintTimeoutRef g) (isMounted g)
    (timers g) (nextTimer g) (inflight g) (effects g).
Definition setScore (f : nat → nat) (g : Game) : Game :=
  mkGame (page g) (currentIndex g) (f (score g)) (isDragOver g) (feedback g) (showHint g)
    (illustrationUrl g) (isGenerating g) (hintTimeoutRef g) (isMounted g)
    (timers g) (nextTimer g) (inflight g) (effects g).
Definition setIsDragOver (b : bool) (g : Game) : Game :=
  mkGame (page g) (currentIndex g) (score g) b (feedback g) (showHint g)
    (illustrationUrl g) (isGenerating g) (hintTimeoutRef g) (isMounted g)
    (timers g) (nextTimer g) (inflight g) (effects g).
Definition setFeedback (fb : option Feedback) (g : Game) : Game :=
  mkGame (page g) (currentIndex g) (score g) (isDragOver g) fb (showHint g)
    (illustrationUrl g) (isGenerating g) (hintTimeoutRef g) (isMounted g)
    (timers g) (nextTimer g) (inflight g) (effects g).
Definition setShowHint (b : bool) (g : Game) : Game :=
  mkGame (page g) (currentIndex g) (score g) (isDragOver g) (feedback g) b
    (illustrationUrl g) (isGenerating g) (hintTimeoutRef g) (isMounted g)
    (timers g) (nextTimer g) (inflight g) (effects g).
Definition setIllustrationUrl (u : option string) (g : Game) : Game :=
  mkGame (page g) (currentIndex g) (score g) (isDragOver g) (feedback g) (showHint g)
    u (isGenerating g) (hintTimeoutRef g) (isMounted g)
    (timers g) (nextTimer g) (inflight g) (effects g).
Definition setIsGenerating (b : bool) (g : Game) : Game :=
  mkGame (page g) (currentIndex g) (score g) (isDragOver g) (feedback g) (showHint g)
    (illustrationUrl g) b (hintTimeoutRef g) (isMounted g)
    (timers g) (nextTimer g) (inflight g) (effects g).
Definition setHintTimeoutRef (r : option nat) (g : Game) : Game :=
  mkGame (page g) (currentIndex g) (score g) (isDragOver g) (feedback g) (showHint g)
    (illustrationUrl g) (isGenerating g) r (isMounted g)
    (timers g) (nextTimer g) (inflight g) (effects g).
Definition setIsMounted (b : bool) (g : Game) : Game :=
  mkGame (page g) (currentIndex g) (score g) (isDragOver g) (feedback g) (showHint g)
    (illustrationUrl g) (isGenerating g) (hintTimeoutRef g) b
    (timers g) (nextTimer g) (inflight g) (effects g).
Definition setTimers (ts : list Timer) (n : nat) (g : Game) : Game :=
  mkGame (page g) (currentIndex g) (score g) (isDragOver g) (feedback g) (showHint g)
    (illustrationUrl g) (isGenerating g) (hintTimeoutRef g) (isMounted g)
    ts n (inflight g) (effects g).
Definition setInflight (qs : list Question) (g : Game) : Game :=
  mkGame (page g) (currentIndex g) (score g) (isDragOver g) (feedback g) (showHint g)
    (illustrationUrl g) (isGenerating g) (hintTimeoutRef g) (isMounted g)
    (timers g) (nextTimer g) qs (effects g).
Definition emit (e : Effect) (g : Game) : Game :=
  mkGame (page g) (currentIndex g) (score g) (isDragOver g) (feedback g) (showHint g)
    (illustrationUrl g) (isGenerating g) (hintTimeoutRef g) (isMounted g)
    (timers g) (nextTimer g) (inflight g) (effects g ++ [e]).

(** [window.setTimeout(() => setShowHint(true), ms)]: the new handle and the
    browser with the timer scheduled.  Handles are positive and fresh. *)
Definition setTimeout (ms : nat) (g : Game) : nat * Game :=
  let h := nextTimer g in
  (h, setTimers (timers g ++ [mkTimer h ms]) (S h) g).

(** [clearTimeout(h)]: a handle that names no scheduled timer is ignored. *)
Definition clearTimeout (h : nat) (g : Game) : Game :=
  setTimers (filter (λ t, handle t ≠ h) (timers g)) (nextTimer g) g.

(** Handles of the timers that are still to fire. *)
Definition pending (g : Game) : list nat := handle <$> timers g.

(** The [navigateHome] of [App] (lines 481-485), passed to [GamePage] as a
    prop; subject and level of [App] only choose the question list. *)
Definition navigateHome (g : Game) : Game := setPage Home g.

(** The state of a freshly created [GamePage] (lines 263-272), in a browser
    that has handed out no timer yet. *)
Definition initial : Game :=
  mkGame GamePlay 0 0 false None false None false None true [] 1 [] [].

(** ** GamePage (App.tsx, lines 257-446) *)

(** How the pending illustration request of a question ends: the call that
    derives the image prompt throws, the call that generates the image throws,
    or the image bytes arrive. *)
Inductive Reply := PromptFails | ImageFails | ImageBytes (base64 : string).

(** What the user, the timers and the illustration provider do. *)
Inductive Event :=
| DragEnter
| DragLeave
| Drop (payload : string)       (* a drop on the drop zone, text/plain data *)
| ClickClose                    (* the button of the feedback modal *)
| ClickHome                     (* the home button of the header *)
| TimerFires (h : nat)
| Settles (q : Question) (r : Reply).

(** The picture area (lines 405-418). *)
Inductive Picture := Spinner | Img (img_src img_alt : string).

(** What [GamePage] returns: the placeholder of lines 387-389, or the game
    screen with the values its elements are rendered from. *)
Inductive View :=
| Loading
| Playing (stars total progress : nat) (text : string) (picture : Picture)
          (isOver : bool) (isCorrect : option bool) (hintShown : option string)
          (items : list AnswerOption) (modal : option bool).

(** [u || d] on a nullable string: null and the empty string are falsy. *)
Definition or_src (u : option string) (d : string) : string :=
  match u with
  | Some s => if String.eqb s "" then d else s
  | None => d
  end.

(** The requests still pending once one request for [q] has settled. *)
Fixpoint settled (q : Question) (l : list Question) : list Question :=
  match l with
  | [] => []
  | x :: l => if decide (x = q) then l else x :: settled q l
  end.

Section GamePage.
(** The memoised question list, the settings prop, and whether the browser
    has [navigator.vibrate]. *)
Variable questions : list Question.
Variable settings : Settings.
Variable canVibrate : bool.
(** Whether [new GoogleGenAI({ apiKey: process.env.API_KEY })] throws; the
    key is fixed when the application is built. *)
Variable clientThrows : bool.

(** [questions[currentIndex]]: undefined past the end of the array. *)
Definition currentQuestion (g : Game) : option Question :=
  questions !! currentIndex g.

(** [useSpeech] (lines 32-43). *)
Definition speak (text : string) (g : Game) : Game :=
  if isTtsEnabled settings && negb (String.eqb text "")
  then emit (Speak text) g else g.

(** [if (navigator.vibrate) navigator.vibrate(pattern)]. *)
Definition vibrate (pattern : list nat) (g : Game) : Game :=
  if canVibrate then emit (Vibrate pattern) g else g.

(** [generateIllustration] up to its first [await] (lines 291-311).  When
    the client cannot be made, the exception is thrown inside [try] before
    anything is sent: [catch] and [finally] (lines 330-339) run at once,
    within the effect. *)
Definition generateIllustration (q : Question) (g : Game) : Game :=
  if negb (isMounted g) then g
  else
    let g := setIsGenerating true g in
    let g := setIllustrationUrl None g in
    if clientThrows then
      let g := emit ConsoleError g in
      let g :=
        if isMounted g
        then setIllustrationUrl (Some (src (illustration q))) g
        else g in
      if isMounted g then setIsGenerating false g else g
    else setInflight (inflight g ++ [q]) (emit (GenerateContent q) g).

(** The rest of [generateIllustration] for question [q], run when the
    request settles (lines 312-339): [try], [catch], then [finally]. *)
Definition generateIllustration_settle (q : Question) (r : Reply) (g : Game) : Game :=
  let g :=
    match r with
    | ImageBytes b =>
        if isMounted g
        then setIllustrationUrl (Some ("data:image/png;base64," +:+ b)) g
        else g
    | PromptFails | ImageFails =>
        let g := emit ConsoleError g in
        if isMounted g
        then setIllustrationUrl (Some (src (illustration q))) g
        else g
    end in
  if isMounted g then setIsGenerating false g else g.

(** The effect on [currentQuestion] (lines 282-344). *)
Definition questionEffect (g : Game) : Game :=
  match currentQuestion g with
  | Some q =>
      let g := speak (prompt q) g in
      if reduceMotion settings
      then setIllustrationUrl (Some (src (illustration q))) g
      else generateIllustration q g
  | None => g
  end.

(** Lines 346-353.  A handle is truthy when it is not null and not 0. *)
Definition resetAttemptState (g : Game) : Game :=
  let g := setIsDragOver false g in
  let g := setFeedback None g in
  let g := setShowHint false g in
  match hintTimeoutRef g with
  | Some h => if Nat.eqb h 0 then g else clearTimeout h g
  | None => g
  end.

(** Lines 359-373.  [None] is the TypeError of reading [correctAnswer] of an
    undefined [currentQuestion]. *)
Definition handleDrop (droppedValue : string) (g : Game) : option Game :=
  match currentQuestion g with
  | None => None
  | Some q =>
      let isCorrect := String.eqb droppedValue (correctAnswer q) in
      if isCorrect then
        let g := setScore S g in
        let g := setFeedback (Some (mkFeedback true true)) g in
        Some (vibrate [100] g)
      else
        let g := setFeedback (Some (mkFeedback false true)) g in
        let g := vibrate [200; 50; 200] g in
        let '(h, g) := setTimeout 1000 g in
        Some (setHintTimeoutRef (Some h) g)
  end.

(** [feedback?.correct] as a condition. *)
Definition feedback_correct (g : Game) : bool :=
  match feedback g with Some fb => correct fb | None => false end.

(** Lines 375-385.  [score] and [currentIndex] are the values of the render
    the handler belongs to; [questions.length - 1] is computed in Z as it
    is -1 for the empty list. *)
Definition handleCloseFeedback (g : Game) : Game :=
  let g' :=
    if feedback_correct g then
      if (Z.of_nat (currentIndex g) <? Z.of_nat (length questions) - 1)%Z
      then setCurrentIndex S g
      else navigateHome (emit (Alert (score g + 1) (length questions)) g)
    else g in
  resetAttemptState g'.

(** The callback of the hint timer, [() => setShowHint(true)]; React drops
    the update of a component that is gone. *)
Definition hintTimeout (h : nat) (g : Game) : Game :=
  let g := setTimers (filter (λ t, handle t ≠ h) (timers g)) (nextTimer g) g in
  if isMounted g then setShowHint true g else g.

(** The returned element (lines 387-445). *)
Definition render (g : Game) : View :=
  match currentQuestion g with
  | None => Loading
  | Some q =>
      Playing (score g) (length questions) (currentIndex g + 1) (prompt q)
        (if isGenerating g then Spinner
         else Img (or_src (illustrationUrl g) (src (illustration q)))
                  (alt (illustration q)))
        (isDragOver g)
        (correct <$> feedback g)
        (if showHint g then Some (hint q) else None)
        (options q)
        (match feedback g with
         | Some fb => if show fb then Some (correct fb) else None
         | None => None
         end)
  end.

(** The [src] of the picture on the screen, if a picture is shown. *)
Definition displayed (g : Game) : option string :=
  match render g with
  | Playing _ _ _ _ (Img s _) _ _ _ _ _ => Some s
  | _ => None
  end.

(** A drop on the drop zone.  [handleDrop] is the [onDrop] of the drop zone
    (lines 109 and 426) and of the element around it (line 423); the event
    bubbles from the first to the second and no handler stops it, so both
    run, with the values of the same render. *)
Definition onDrop (payload : string) (g : Game) : option Game :=
  handleDrop payload g ≫= handleDrop payload.

(** After the handlers of an event, React renders again: leaving the game
    page unmounts the component (cleanup of lines 277-280), and a new
    [currentQuestion] runs the effect again.  The questions of the list are
    distinct objects, so the dependency changes with [currentIndex]. *)
Definition commit (before after : Game) : Game :=
  match page after with
  | GamePlay =>
      if Nat.eqb (currentIndex after) (currentIndex before) then after
      else questionEffect after
  | _ => setIsMounted false after
  end.

(** One event.  The elements that carry the handlers exist only on the game
    screen, the close button only while the modal is open (the modal covers
    the screen but takes no handler away); timers and requests call back
    whatever is on the screen.  [None] is an exception that escapes a
    handler. *)
Definition step (g : Game) (ev : Event) : option Game :=
  match ev with
  | TimerFires h =>
      Some (if decide (h ∈ pending g) then hintTimeout h g else g)
  | Settles q r =>
      Some (if decide (q ∈ inflight g)
            then generateIllustration_settle q r
                   (setInflight (settled q (inflight g)) g)
            else g)
  | _ =>
      if negb (isMounted g) then Some g
      else
        match render g with
        | Loading => Some g
        | Playing _ _ _ _ _ _ _ _ _ modal =>
            match ev with
            | DragEnter => Some (setIsDragOver true g)
            | DragLeave => Some (setIsDragOver false g)
            | Drop v => commit g <$> onDrop v g
            | ClickClose =>
                match modal with
                | Some _ => Some (commit g (handleCloseFeedback g))
                | None => Some g
                end
            | ClickHome => Some (commit g (navigateHome g))
            | _ => Some g
            end
        end
  end.

Fixpoint run (g : Game) (evs : list Event) : option Game :=
  match evs with
  | [] => Some g
  | ev :: evs => step g ev ≫= λ g', run g' evs
  end.

(** Mounting the component: the effect of lines 277-280, then the effect on
    the first question. *)
Definition mount : Game := questionEffect (setIsMounted true initial).

(** A session: mount, then the events. *)
Definition play (evs : list Event) : option Game := run mount evs.
End GamePage.

(** ** Sample data

    The two questions of the scenario of the specification, shuffled to
    [[q_pet; q_sum]], and the settings [App] starts with (lines 454-458). *)

Definition q_sum : Question :=
  mkQuestion "q1" Math One "2 + 2 = ?" (mkIllustration "sum.png" "sum")
    [mkOption "3" "bg-red-500" None None; mkOption "4" "bg-blue-500" None None]
    "4" "count them" (mkMedia gif "stars.gif" "stars").

Definition q_pet : Question :=
  mkQuestion "q2" Portuguese One "Who says meow?" (mkIllustration "pet.png" "pet")
    [mkOption "dog" "bg-red-500" None None; mkOption "cat" "bg-blue-500" None None]
    "cat" "it purrs" (mkMedia gif "stars.gif" "stars").

Definition defaults : Settings := mkSettings false false false.

Definition calm : Settings := mkSettings false false true.

(** The game on [[q_sum]] while the modal shows a wrong answer: the hint
    timer 1 is scheduled and the ref holds its handle. *)
Definition wrong_shown : Game :=
  mkGame GamePlay 0 0 false (Some (mkFeedback false true)) false
    (Some "sum.png") false (Some 1) true [mkTimer 1 1000] 2 [] [].

(** The game on [[q_sum]] with nothing dropped yet, the drop zone hovered. *)
Definition hovering : Game :=
  mkGame GamePlay 0 0 true None false (Some "sum.png") false None true [] 1 [] [].

(** The game on [[q_sum]] while its illustration is being generated. *)
Definition generating : Game :=
  mkGame GamePlay 0 0 false None false None true None true [] 1 [q_sum]
    [GenerateContent q_sum].

(** An effect other than an illustration request. *)
Definition no_request (e : Effect) : Prop := ∀ q, e ≠ GenerateContent q.

(** [g'] has the picture state of [g] and has asked for no illustration
    that [g] had not asked for. *)
Definition same_picture (g g' : Game) : Prop :=
  isGenerating g' = isGenerating g ∧ inflight g' = inflight g ∧
  illustrationUrl g' = illustrationUrl g ∧ isMounted g' = isMounted g ∧
  (Forall no_request (effects g) → Forall no_request (effects g')).

(** No illustration was requested and none is awaited; the picture of the
    current question, if there is one, is its own static illustration; a
    mounted component is on the game page. *)
Definition still (questions : list Question) (g : Game) : Prop :=
  isGenerating g = false ∧ inflight g = [] ∧
  Forall no_request (effects g) ∧
  (∀ q, currentQuestion questions g = Some q →
        illustrationUrl g = Some (src (illustration q))) ∧
  (isMounted g = true → page g = GamePlay).

(** ** Stars (App.tsx, lines 66-70)

    One star per index below [total]; star [i] is filled when [i < count]. *)
Definition Stars (count total : nat) : list bool :=
  (λ i, bool_decide (i < count)) <$> seq 0 total.

(** ** SettingsPage: toggleSetting (lines 205-208) *)

(** [keyof Settings]. *)
Inductive SettingKey := isTtsEnabled_key | isHighContrast_key | reduceMotion_key.

(** [prev[key]]. *)
Definition getSetting (key : SettingKey) (s : Settings) : bool :=
  match key with
  | isTtsEnabled_key => isTtsEnabled s
  | isHighContrast_key => isHighContrast s
  | reduceMotion_key => reduceMotion s
  end.

(** [prev => ({ ...prev, [key]: !prev[key] })]. *)
Definition toggleSetting (key : SettingKey) (prev : Settings) : Settings :=
  match key with
  | isTtsEnabled_key =>
      mkSettings (negb (isTtsEnabled prev)) (isHighContrast prev) (reduceMotion prev)
  | isHighContrast_key =>
      mkSettings (isTtsEnabled prev) (negb (isHighContrast prev)) (reduceMotion prev)
  | reduceMotion_key =>
      mkSettings (isTtsEnabled prev) (isHighContrast prev) (negb (reduceMotion prev))
  end.

(** ** useLocalStorage (lines 9-30) *)

(** [window.localStorage]: its items, whether every access throws (storage
    refused by the browser), and whether [setItem] throws (quota exceeded). *)
Record LocalStorage := mkStorage {
  items : gmap string string;
  blocked : bool;
  full : bool
}.

(** The argument of the setter: a value, or a function of the old value. *)
Inductive SetStateAction (T : Type) :=
| Value (v : T)
| Updater (f : T → T).
Arguments Value {T} v.
Arguments Updater {T} f.

(** The hook: its state, the storage behind it, and the number of calls of
    [console.error] it has made. *)
Record Hook (T : Type) := mkHook {
  storedValue : T;
  storage : LocalStorage;
  logged : nat
}.
Arguments mkHook {T} _ _ _.
Arguments storedValue {T} _.
Arguments storage {T} _.
Arguments logged {T} _.

Section UseLocalStorage.
Context {T : Type}.
(** [JSON.parse], [None] when it throws, and [JSON.stringify].  The hook
    takes what [JSON.parse] returns for a [T] without looking at it; an item
    that parses to something else, as the text null does, is outside of what
    this type can say, and the statements below are about storage without
    such an item. *)
Variable parse : string → option T.
Variable stringify : T → string.

(** The initialiser of [useState] (lines 10-18): a missing or empty item
    gives [initialValue]; an exception is logged and gives it too. *)
Definition useLocalStorage (key : string) (initialValue : T) (ls : LocalStorage) : Hook T :=
  if blocked ls then mkHook initialValue ls 1
  else
    match items ls !! key with
    | Some item =>
        if String.eqb item "" then mkHook initialValue ls 0
        else
          match parse item with
          | Some v => mkHook v ls 0
          | None => mkHook initialValue ls 1
          end
    | None => mkHook initialValue ls 0
    end.

(** [setValue] (lines 20-28): the state is set before [setItem] is tried. *)
Definition setValue (key : string) (value : SetStateAction T) (h : Hook T) : Hook T :=
  let valueToStore :=
    match value with
    | Updater f => f (storedValue h)
    | Value v => v
    end in
  let ls := storage h in
  if blocked ls || full ls then mkHook valueToStore ls (S (logged h))
  else
    mkHook valueToStore
      (mkStorage (<[key := stringify valueToStore]> (items ls)) (blocked ls) (full ls))
      (logged h).
End UseLocalStorage.

(** ** App (lines 450-519) *)

(** The component [renderPage] returns, with the props that matter. *)
Inductive Screen :=
| HomeScreen
| LevelSelectionScreen (s : Subject)
| GameScreen (s : Subject) (l : Level)
| SettingsScreen.

(** What the user can click outside of a game. *)
Inductive Click :=
| ChooseSubject (s : Subject)   (* the two buttons of HomePage *)
| OpenSettings                  (* the gear button of App *)
| ChooseLevel (l : Level)       (* the two buttons of LevelSelectionPage *)
| Back                          (* navigateBack of LevelSelectionPage and SettingsPage *)
| Toggle (key : SettingKey)     (* the three switches of SettingsPage *)
| LeaveGame.                    (* GamePage calls its navigateHome prop *)

Module App.
(** The state of [App], and whether the root element has the class
    [dark]. *)
Record State := mkState {
  page : Page;
  subject : option Subject;
  level : option Level;
  settings : Hook Settings;
  dark : bool
}.

Section App.
Variable parse : string → option Settings.
Variable stringify : Settings → string.

(** Lines 469-474; every [Subject] is a non-empty string, hence truthy. *)
Definition navigateTo (newPage : Page) (newSubject : option Subject) (a : State) : State :=
  mkState newPage
    (match newSubject with Some s => Some s | None => subject a end)
    (level a) (settings a) (dark a).

(** Lines 476-479. *)
Definition navigateToGame (newLevel : Level) (a : State) : State :=
  mkState GamePlay (subject a) (Some newLevel) (settings a) (dark a).

(** Lines 481-485. *)
Definition navigateHome (a : State) : State :=
  mkState Home None None (settings a) (dark a).

(** Lines 487-505, with the fallbacks to [HomePage]; the levels are 1 and
    2, hence truthy. *)
Definition renderPage (a : State) : Screen :=
  match page a with
  | SettingsPage => SettingsScreen
  | LevelSelection =>
      match subject a with
      | Some s => LevelSelectionScreen s
      | None => HomeScreen
      end
  | GamePlay =>
      match subject a, level a with
      | Some s, Some l => GameScreen s l
      | _, _ => HomeScreen
      end
  | Home => HomeScreen
  end.

(** The gear button is rendered on every page but the game and the level
    selection (line 509). *)
Definition gearShown (a : State) : bool :=
  match page a with
  | GamePlay | LevelSelection => false
  | _ => true
  end.

(** [toggleSetting] of [SettingsPage] through the setter of the hook. *)
Definition toggle (key : SettingKey) (a : State) : State :=
  mkState (page a) (subject a) (level a)
    (setValue stringify "apprenda-settings" (Updater (toggleSetting key)) (settings a))
    (dark a).

(** The effect on [settings.isHighContrast] (lines 460-467). *)
Definition contrastEffect (a : State) : State :=
  mkState (page a) (subject a) (level a) (settings a)
    (isHighContrast (storedValue (settings a))).

(** The handler a click reaches on the screen that is shown; a click on an
    element that is not rendered does nothing. *)
Definition handle (c : Click) (a : State) : State :=
  match c with
  | OpenSettings => if gearShown a then navigateTo SettingsPage None a else a
  | _ =>
      match renderPage a, c with
      | HomeScreen, ChooseSubject s => navigateTo LevelSelection (Some s) a
      | LevelSelectionScreen _, ChooseLevel l => navigateToGame l a
      | LevelSelectionScreen _, Back => navigateHome a
      | SettingsScreen, Toggle key => toggle key a
      | SettingsScreen, Back => navigateHome a
      | GameScreen _ _, LeaveGame => navigateHome a
      | _, _ => a
      end
  end.

(** One click, then the effects of the render that follows. *)
Definition step (a : State) (c : Click) : State := contrastEffect (handle c a).

(** [App] on a page load: the state of lines 451-458, then the effect. *)
Definition start (ls : LocalStorage) : State :=
  contrastEffect
    (mkState Home None None
       (useLocalStorage parse "apprenda-settings" (mkSettings false false false) ls)
       false).

Definition run (a : State) (cs : list Click) : State := foldl step a cs.
End App.
End App.

#[global] Instance SettingKey_eq_dec : EqDecision SettingKey.
Proof. solve_decision. Defined.

(** A codec that stands for [JSON.stringify] and [JSON.parse] of a
    [Settings] record in the examples: three digits, one per flag. *)
Definition digit (b : bool) : string := if b then "1" else "0".

Definition digits (s : Settings) : string :=
  digit (isTtsEnabled s) +:+ digit (isHighContrast s) +:+ digit (reduceMotion s).

Definition all_settings : list Settings :=
  b1 ← [false; true]; b2 ← [false; true]; b3 ← [false; true];
  [mkSettings b1 b2 b3].

Definition undigits (item : string) : option Settings :=
  snd <$> list_find (λ s, digits s = item) all_settings.

(** Storage that works and holds the settings [calm]. *)
Definition calm_storage : LocalStorage :=
  mkStorage {[ "apprenda-settings" := "001" ]} false false.

(** Storage whose item is not a settings record. *)
Definition corrupt_storage : LocalStorage :=
  mkStorage {[ "apprenda-settings" := "oops" ]} false false.

(** Storage that is out of space. *)
Definition full_storage : LocalStorage := mkStorage ∅ false true.

(** The text [JSON.stringify] gives for a settings record, whose keys keep
    the order of the initial value through every toggle, and [JSON.parse] on
    the texts so written: the record whose text it is.  On any other text
    [settings_of_json] answers [None]; it is used on written texts only. *)
Definition dquote : string := String (Ascii.ascii_of_nat 34) EmptyString.

Definition json_bool (b : bool) : string := if b then "true" else "false".

Definition json_field (name : string) (b : bool) : string :=
  dquote +:+ name +:+ dquote +:+ ":" +:+ json_bool b.

Definition settings_json (s : Settings) : string :=
  "{" +:+ json_field "isTtsEnabled" (isTtsEnabled s) +:+ "," +:+
  json_field "isHighContrast" (isHighContrast s) +:+ "," +:+
  json_field "reduceMotion" (reduceMotion s) +:+ "}".

Definition settings_of_json (item : string) : option Settings :=
  snd <$> list_find (λ s, settings_json s = item) all_settings.

(** Storage that works and holds the JSON text of the settings [calm]. *)
Definition json_storage : LocalStorage :=
  mkStorage {[ "apprenda-settings" := settings_json calm ]} false false.

(** The subject and the level are set on the pages that need them and on
    no other page. *)
Definition app_consistent (a : App.State) : Prop :=
  match App.page a with
  | GamePlay => is_Some (App.subject a) ∧ is_Some (App.level a)
  | LevelSelection => is_Some (App.subject a) ∧ App.level a = None
  | Home | SettingsPage => App.subject a = None ∧ App.level a = None
  end.

(** The settings a page load would start from, given the storage of [a]. *)
Definition reloaded (parse : string → option Settings) (a : App.State) : Settings :=
  storedValue (App.settings (App.start parse (storage (App.settings a)))).

(** The illustration requests and the alerts among some effects, in order. *)
Definition requests (effs : list Effect) : list Question :=
  omap (λ e, match e with GenerateContent q => Some q | _ => None end) effs.

Definition alerts (effs : list Effect) : list (nat * nat) :=
  omap (λ e, match e with Alert shown total => Some (shown, total) | _ => None end) effs.

(** The effects the settings, the browser and the question list allow. *)
Definition allowed (questions : list Question) (settings : Settings)
    (canVibrate : bool) (e : Effect) : Prop :=
  match e with
  | Speak text => isTtsEnabled settings = true ∧ text ≠ ""
  | Vibrate pattern =>
      canVibrate = true ∧ (pattern = [100] ∨ pattern = [200; 50; 200])
  | Alert _ total => total = length questions
  | ConsoleError => reduceMotion settings = false
  | GenerateContent q => reduceMotion settings = false ∧ q ∈ questions
  end.

(** What holds of every state a session goes through: the component is
    mounted exactly on the game page; the index is inside the list; nothing
    was alerted while mounted, and an alert is the only one, made on the
    last question; a mounted component spins only while a request is
    awaited; every effect is an allowed one and every awaited request is of
    a question of the list; one request was sent per question shown, or none
    where illustrations are not requested. *)
Definition sound (questions : list Question) (settings : Settings)
    (canVibrate clientThrows : bool) (g : Game) : Prop :=
  (isMounted g = true ↔ page g = GamePlay) ∧
  (currentIndex g < length questions ∨ questions = [] ∧ currentIndex g = 0) ∧
  ((isMounted g = true → alerts (effects g) = []) ∧
   (alerts (effects g) = [] ∨
    alerts (effects g) = [(score g + 1, length questions)] ∧
    S (currentIndex g) = length questions)) ∧
  (isMounted g = true → isGenerating g = true → inflight g ≠ []) ∧
  (Forall (allowed questions settings canVibrate) (effects g) ∧
   Forall (λ q, reduceMotion settings = false ∧ q ∈ questions) (inflight g)) ∧
  requests (effects g)
  = (if reduceMotion settings || clientThrows then []
     else take (S (currentIndex g)) questions).

(** The game on [[q_sum]] after the home button was clicked while the modal
    showed a wrong answer: the component is gone, its timer is not. *)
Definition gone : Game := setIsMounted false (navigateHome wrong_shown).

(** The game on [[q_pet; q_sum]] and its first question, mounted, with
    nothing on the screen yet. *)
Definition fresh : Game := setIsMounted true initial.

(** The events of a player who drops the right answer on each question of
    the list and closes the feedback. *)
Definition perfect (questions : list Question) : list Event :=
  q ← questions; [Drop (correctAnswer q); ClickClose].

(** * Properties *)

(** ** The shuffle *)

Lemma floor_mul_lt (r : Draw) (n : nat) : 0 < n → floor_mul r n < n.
Proof.
  intros Hn. unfold floor_mul.
  apply Nat.Div0.div_lt_upper_bound. nia.
Qed.

Section ShuffleFacts.
Context {T : Type}.
Implicit Types a : list T.

(** Inside the array the swap is the two writes of the source. *)
Lemma swap_in_range a i j :
  i < length a → j < length a →
  ∃ x y, a !! j = Some x ∧ a !! i = Some y ∧ swap a i j = <[j:=y]> (<[i:=x]> a).
Proof.
  intros Hi Hj.
  destruct (lookup_lt_is_Some_2 a i Hi) as [y Hy].
  destruct (lookup_lt_is_Some_2 a j Hj) as [x Hx].
  exists x, y. unfold swap. by rewrite Hx, Hy.
Qed.

Lemma length_swap a i j : length (swap a i j) = length a.
Proof.
  unfold swap. destruct (a !! j), (a !! i); try done.
  by rewrite !length_insert.
Qed.

Lemma transpose_inj i j : Inj (=) (=) (transpose i j).
Proof.
  intros k1 k2. unfold transpose.
  repeat case_decide; intros; subst; congruence.
Qed.

(** Reading the array after the two writes is reading the old array at the
    transposed index. *)
Lemma lookup_two_writes a i j x y k :
  a !! j = Some x → a !! i = Some y →
  <[j:=y]> (<[i:=x]> a) !! k = a !! transpose i j k.
Proof.
  intros Hx Hy. unfold transpose.
  assert (i < length a) by (by eapply lookup_lt_Some).
  assert (j < length a) by (by eapply lookup_lt_Some).
  destruct (decide (k = j)) as [->|Hkj].
  - rewrite list_lookup_insert_eq by (by rewrite length_insert). done.
  - rewrite list_lookup_insert_ne by done.
    destruct (decide (k = i)) as [->|Hki].
    + by rewrite list_lookup_insert_eq.
    + by rewrite list_lookup_insert_ne.
Qed.

Lemma swap_Permutation a i j : swap a i j ≡ₚ a.
Proof.
  unfold swap.
  destruct (a !! j) as [x|] eqn:Hx; [|done].
  destruct (a !! i) as [y|] eqn:Hy; [|done].
  apply Permutation_inj. split; [by rewrite !length_insert|].
  exists (transpose i j). split; [apply transpose_inj|].
  intros k. by apply lookup_two_writes.
Qed.

Lemma shuffle_loop_Permutation random k i a :
  shuffle_loop random k i a ≡ₚ a.
Proof.
  revert k a. induction i as [|i IH]; intros k a; simpl; [done|].
  rewrite IH. apply swap_Permutation.
Qed.

Lemma shuffleArray_Permutation random a : shuffleArray random a ≡ₚ a.
Proof. apply shuffle_loop_Permutation. Qed.

(** Every swap of the loop stays inside the array: the index drawn for
    position [i] is at most [i]. *)
Lemma shuffle_loop_draw_in_range (random : nat → Draw) k i a :
  i < length a → floor_mul (random k) (i + 1) < length a.
Proof. intros Hi. pose proof (floor_mul_lt (random k) (i + 1)). lia. Qed.
End ShuffleFacts.

(** C6: the question list of a session is a permutation of the filtered
    questions, whatever [Math.random] returns: the same records with the
    same multiplicities, hence the same length and the same identifiers. *)
Theorem questions_of_permutation (random : nat → Draw)
    (ALL_QUESTIONS : list Question) (subj : Subject) (lvl : Level) :
  let filtered := filter (λ q, subject q = subj ∧ level q = lvl) ALL_QUESTIONS in
  let questions := questions_of random ALL_QUESTIONS subj lvl in
  questions ≡ₚ filtered ∧
  length questions = length filtered ∧
  id <$> questions ≡ₚ id <$> filtered.
Proof.
  intros filtered questions.
  assert (Hp : questions ≡ₚ filtered) by apply shuffleArray_Permutation.
  split; [done|]. split.
  - by apply Permutation_length.
  - by apply fmap_Permutation.
Qed.

(** ** The handlers *)

Section HandlerFacts.
Variable questions : list Question.
Variable settings : Settings.
Variable canVibrate : bool.

Lemma pending_clearTimeout h g :
  pending (clearTimeout h g) = filter (λ k, k ≠ h) (pending g).
Proof.
  unfold pending, clearTimeout. simpl.
  generalize (timers g). intros ts.
  induction ts as [|t ts IH]; [done|].
  rewrite fmap_cons, !filter_cons.
  destruct (decide (handle t ≠ h)); [rewrite fmap_cons|]; by rewrite IH.
Qed.

Lemma clearTimeout_not_pending h g : h ∉ pending (clearTimeout h g).
Proof.
  rewrite pending_clearTimeout. intros [Hne _]%list_elem_of_filter. done.
Qed.

(** What [resetAttemptState] leaves alone. *)
Lemma resetAttemptState_frame g :
  let g' := resetAttemptState g in
  page g' = page g ∧ currentIndex g' = currentIndex g ∧ score g' = score g ∧
  illustrationUrl g' = illustrationUrl g ∧ isGenerating g' = isGenerating g ∧
  hintTimeoutRef g' = hintTimeoutRef g ∧ isMounted g' = isMounted g ∧
  inflight g' = inflight g ∧ effects g' = effects g ∧
  nextTimer g' = nextTimer g.
Proof.
  unfold resetAttemptState. simpl.
  destruct (hintTimeoutRef g) as [h|] eqn:Href; [destruct (Nat.eqb h 0)|];
    simpl; rewrite ?Href; done.
Qed.

(** What [resetAttemptState] resets: the three flags, and the timer whose
    handle the ref holds. *)
Lemma resetAttemptState_resets g :
  let g' := resetAttemptState g in
  isDragOver g' = false ∧ feedback g' = None ∧ showHint g' = false ∧
  pending g' ⊆ pending g ∧
  (∀ h, hintTimeoutRef g = Some h → h ≠ 0 → h ∉ pending g').
Proof.
  unfold resetAttemptState. simpl.
  destruct (hintTimeoutRef g) as [h|] eqn:Href.
  - destruct (Nat.eqb_spec h 0) as [->|Hh].
    + repeat split; try done. intros ? [= <-] ?. done.
    + repeat split; try done.
      * rewrite pending_clearTimeout. intros k [_ ?]%list_elem_of_filter. done.
      * intros ? [= <-] _. apply clearTimeout_not_pending.
  - repeat split; done.
Qed.

(** A timer whose handle the ref has lost survives the reset. *)
Lemma resetAttemptState_keeps_untracked g k :
  k ∈ pending g → hintTimeoutRef g ≠ Some k → k ∈ pending (resetAttemptState g).
Proof.
  intros Hk Href. unfold resetAttemptState. simpl.
  destruct (hintTimeoutRef g) as [h|]; [|done].
  destruct (Nat.eqb h 0); [done|].
  rewrite pending_clearTimeout. apply list_elem_of_filter. split; [|done].
  congruence.
Qed.

(** The accepting branch of [handleDrop]: one point, correct feedback, and
    the timers as they were. *)
Lemma handleDrop_correct g q :
  currentQuestion questions g = Some q →
  ∃ g', handleDrop questions canVibrate (correctAnswer q) g = Some g' ∧
    score g' = S (score g) ∧ feedback g' = Some (mkFeedback true true) ∧
    currentIndex g' = currentIndex g ∧
    timers g' = timers g ∧ hintTimeoutRef g' = hintTimeoutRef g.
Proof.
  intros Hq. unfold handleDrop. rewrite Hq, String.eqb_refl.
  eexists. split; [done|]. unfold vibrate. by destruct canVibrate.
Qed.

(** The rejecting branch of [handleDrop]: incorrect feedback, the score as
    it was, one new timer of 1000 ms whose handle goes to the ref, and every
    timer that was scheduled before still scheduled. *)
Lemma handleDrop_incorrect g q v :
  currentQuestion questions g = Some q → v ≠ correctAnswer q →
  ∃ g', handleDrop questions canVibrate v g = Some g' ∧
    score g' = score g ∧ feedback g' = Some (mkFeedback false true) ∧
    currentIndex g' = currentIndex g ∧
    timers g' = timers g ++ [mkTimer (nextTimer g) 1000] ∧
    hintTimeoutRef g' = Some (nextTimer g) ∧
    nextTimer g' = S (nextTimer g).
Proof.
  intros Hq Hv. unfold handleDrop. rewrite Hq.
  apply String.eqb_neq in Hv. rewrite Hv.
  eexists. split; [done|]. unfold vibrate. by destruct canVibrate.
Qed.

(** Closing correct feedback on the last question alerts [score + 1] and
    leaves the game page. *)
Lemma handleCloseFeedback_last g :
  feedback_correct g = true →
  length questions ≤ S (currentIndex g) →
  let g' := handleCloseFeedback questions g in
  page g' = Home ∧
  effects g' = effects g ++ [Alert (score g + 1) (length questions)].
Proof.
  intros Hc Hlast. unfold handleCloseFeedback. rewrite Hc.
  destruct (Z.ltb_spec (Z.of_nat (currentIndex g))
              (Z.of_nat (length questions) - 1)) as [?|_]; [lia|].
  match goal with |- context [resetAttemptState ?x] =>
    destruct (resetAttemptState_frame x) as (-> & _ & _ & _ & _ & _ & _ & _ & -> & _)
  end. done.
Qed.
End HandlerFacts.

(** C5: closing incorrect feedback keeps the question, the score and the page,
    reports nothing, and clears the feedback, the hint and the hint timer the
    ref holds. *)
Theorem close_incorrect_feedback (questions : list Question) (g : Game) (fb : Feedback) :
  feedback g = Some fb → correct fb = false →
  let g' := handleCloseFeedback questions g in
  currentIndex g' = currentIndex g ∧ score g' = score g ∧
  page g' = page g ∧ effects g' = effects g ∧
  feedback g' = None ∧ showHint g' = false ∧ isDragOver g' = false ∧
  (∀ h, hintTimeoutRef g = Some h → h ≠ 0 → h ∉ pending g').
Proof.
  intros Hfb Hc g'.
  assert (Hg' : g' = resetAttemptState g).
  { subst g'. unfold handleCloseFeedback, feedback_correct. by rewrite Hfb, Hc. }
  rewrite Hg'.
  destruct (resetAttemptState_frame g) as (? & ? & ? & _ & _ & _ & _ & _ & ? & _).
  destruct (resetAttemptState_resets g) as (? & ? & ? & _ & ?).
  repeat split; done.
Qed.

Lemma close_incorrect_feedback_witness :
  feedback wrong_shown = Some (mkFeedback false true) ∧
  currentIndex (handleCloseFeedback [q_sum] wrong_shown) = 0 ∧
  score (handleCloseFeedback [q_sum] wrong_shown) = 0 ∧
  feedback (handleCloseFeedback [q_sum] wrong_shown) = None.
Proof.
  pose proof (close_incorrect_feedback [q_sum] wrong_shown (mkFeedback false true)
                eq_refl eq_refl) as (Hi & Hs & _ & _ & Hf & _).
  split; [reflexivity|]. split; [exact Hi|]. split; [exact Hs|exact Hf].
Defined.

(** C10: closing when no feedback is set is [resetAttemptState] and nothing
    else: index, score, page, effects and picture stay, the session does not
    end, and the drag-over flag, the feedback, the hint and the timer of the
    ref are reset. *)
Theorem close_without_feedback (questions : list Question) (g : Game) :
  feedback g = None →
  let g' := handleCloseFeedback questions g in
  g' = resetAttemptState g ∧
  currentIndex g' = currentIndex g ∧ score g' = score g ∧
  page g' = page g ∧ effects g' = effects g ∧
  illustrationUrl g' = illustrationUrl g ∧ isGenerating g' = isGenerating g ∧
  isDragOver g' = false ∧ feedback g' = None ∧ showHint g' = false ∧
  pending g' ⊆ pending g ∧
  (∀ h, hintTimeoutRef g = Some h → h ≠ 0 → h ∉ pending g').
Proof.
  intros Hfb g'.
  assert (Hg' : g' = resetAttemptState g).
  { subst g'. unfold handleCloseFeedback, feedback_correct. by rewrite Hfb. }
  rewrite Hg'.
  destruct (resetAttemptState_frame g) as (? & ? & ? & ? & ? & _ & _ & _ & ? & _).
  destruct (resetAttemptState_resets g) as (? & ? & ? & ? & ?).
  repeat split; done.
Qed.

Lemma close_without_feedback_witness :
  feedback hovering = None ∧
  handleCloseFeedback [q_sum] hovering = resetAttemptState hovering ∧
  isDragOver (handleCloseFeedback [q_sum] hovering) = false.
Proof.
  pose proof (close_without_feedback [q_sum] hovering eq_refl)
    as (He & _ & _ & _ & _ & _ & _ & Hd & _).
  split; [reflexivity|]. split; [exact He|exact Hd].
Defined.

(** What a failed request does.  When the illustration request of question
    [q] fails, at the first call or at the second, a mounted game stops
    generating and takes the static illustration of [q], the question the
    request was made for: this is the picture on the screen while [q] is
    the current question, and, its [src] not being empty, also when the
    player has moved on to another question meanwhile.  The failure goes to
    the console and nothing of the game (page, question, score, feedback,
    hint, timers) changes. *)
Lemma illustration_failure_falls_back
    (questions : list Question) (g : Game) (q : Question) (r : Reply) :
  r = PromptFails ∨ r = ImageFails →
  isMounted g = true →
  let g' := generateIllustration_settle q r g in
  isGenerating g' = false ∧
  illustrationUrl g' = Some (src (illustration q)) ∧
  (∀ q', currentQuestion questions g = Some q' →
         q' = q ∨ src (illustration q) ≠ "" →
         displayed questions g' = Some (src (illustration q))) ∧
  effects g' = effects g ++ [ConsoleError] ∧
  page g' = page g ∧ currentIndex g' = currentIndex g ∧ score g' = score g ∧
  feedback g' = feedback g ∧ showHint g' = showHint g ∧
  isDragOver g' = isDragOver g ∧ timers g' = timers g.
Proof.
  intros Hr Hm g'.
  assert (Hg' : g' = setIsGenerating false
                       (setIllustrationUrl (Some (src (illustration q)))
                          (emit ConsoleError g))).
  { subst g'. unfold generateIllustration_settle.
    destruct g; simpl in Hm; subst. by destruct Hr as [-> | ->]. }
  rewrite Hg'. simpl. split_and!; try done.
  intros q' Hq Hsame. unfold displayed, render, currentQuestion in *. simpl.
  rewrite Hq. simpl. unfold or_src.
  destruct (String.eqb_spec (src (illustration q)) "") as [Hempty|]; [|done].
  destruct Hsame as [->|]; [|done]. by rewrite Hempty.
Qed.

Lemma illustration_failure_falls_back_witness :
  isMounted generating = true ∧
  isGenerating (generateIllustration_settle q_sum ImageFails generating) = false ∧
  displayed [q_sum] (generateIllustration_settle q_sum ImageFails generating)
    = Some "sum.png".
Proof.
  pose proof (illustration_failure_falls_back [q_sum] generating q_sum ImageFails
                (or_intror eq_refl) eq_refl) as (Hg & _ & Hd & _).
  split; [reflexivity|]. split; [exact Hg|].
  exact (Hd q_sum eq_refl (or_introl eq_refl)).
Defined.

(** ** Events *)

Section EventFacts.
Variable questions : list Question.
Variable settings : Settings.
Variable canVibrate : bool.
Variable clientThrows : bool.

Lemma same_picture_refl g : same_picture g g.
Proof. by repeat split. Qed.

Lemma same_picture_trans g1 g2 g3 :
  same_picture g1 g2 → same_picture g2 g3 → same_picture g1 g3.
Proof.
  intros (? & ? & ? & ? & ?) (? & ? & ? & ? & ?).
  repeat split; try congruence. auto.
Qed.

Lemma no_request_emit e g :
  no_request e → Forall no_request (effects g) →
  Forall no_request (effects (emit e g)).
Proof. intros He Hg. simpl. apply Forall_app. split; [done|]. by constructor. Qed.

Lemma vibrate_same pattern g :
  same_picture g (vibrate canVibrate pattern g) ∧
  currentIndex (vibrate canVibrate pattern g) = currentIndex g ∧
  page (vibrate canVibrate pattern g) = page g.
Proof.
  unfold vibrate. destruct canVibrate; [|by repeat split].
  repeat split; try done. intros Hg. by apply no_request_emit.
Qed.

(** [handleDrop] answers whenever there is a current question, and touches
    neither the page, nor the index, nor the picture. *)
Lemma handleDrop_same v g q :
  currentQuestion questions g = Some q →
  ∃ g', handleDrop questions canVibrate v g = Some g' ∧
    same_picture g g' ∧ currentIndex g' = currentIndex g ∧ page g' = page g.
Proof.
  intros Hq. unfold handleDrop. rewrite Hq.
  destruct (String.eqb v (correctAnswer q)).
  - eexists. split; [done|].
    match goal with |- context [vibrate _ _ ?x] =>
      destruct (vibrate_same [100] x) as (Hs & -> & ->) end.
    split; [|done]. eapply same_picture_trans; [|exact Hs]. by repeat split.
  - match goal with |- context [vibrate _ ?p ?x] =>
      destruct (vibrate_same p x) as (Hs & Hi & Hp);
      set (g1 := vibrate canVibrate p x) in * end.
    simpl. eexists. split; [done|]. simpl. rewrite Hi, Hp.
    split; [|done].
    destruct Hs as (? & ? & ? & ? & ?). by repeat split.
Qed.

Lemma onDrop_same v g q :
  currentQuestion questions g = Some q →
  ∃ g', onDrop questions canVibrate v g = Some g' ∧
    same_picture g g' ∧ currentIndex g' = currentIndex g ∧ page g' = page g.
Proof.
  intros Hq. unfold onDrop.
  destruct (handleDrop_same v g q Hq) as (g1 & -> & Hs1 & Hi1 & Hp1). simpl.
  assert (Hq1 : currentQuestion questions g1 = Some q).
  { unfold currentQuestion in *. by rewrite Hi1. }
  destruct (handleDrop_same v g1 q Hq1) as (g2 & -> & Hs2 & Hi2 & Hp2).
  eexists. split; [done|]. split; [by eapply same_picture_trans|].
  split; congruence.
Qed.

Lemma resetAttemptState_same g : same_picture g (resetAttemptState g).
Proof.
  destruct (resetAttemptState_frame g) as (_ & _ & _ & ? & ? & _ & ? & ? & He & _).
  repeat split; try done. by rewrite He.
Qed.

(** Closing the feedback leaves the picture alone; it keeps the index, or
    moves to the next question of the same page. *)
Lemma handleCloseFeedback_same g :
  let g' := handleCloseFeedback questions g in
  same_picture g g' ∧
  (currentIndex g' = currentIndex g ∨ page g' = page g).
Proof.
  intros g'. subst g'. unfold handleCloseFeedback.
  match goal with |- context [resetAttemptState ?x] =>
    pose proof (resetAttemptState_same x) as Hs;
    destruct (resetAttemptState_frame x) as (Hp & Hi & _);
    set (g1 := x) in * end.
  rewrite Hp, Hi. subst g1.
  destruct (feedback_correct g); [|by split; [|left]].
  destruct (Z.of_nat (currentIndex g) <? Z.of_nat (length questions) - 1)%Z.
  - split; [|by right].
    eapply same_picture_trans; [|exact Hs]. by repeat split.
  - split; [|by left].
    eapply same_picture_trans; [|exact Hs].
    repeat split; try done. intros Hg. by apply no_request_emit.
Qed.

(** No event makes a handler throw. *)
Lemma step_total g ev : is_Some (step questions settings canVibrate clientThrows g ev).
Proof.
  destruct ev as [| |v| | |h|q' r]; simpl; try done;
    destruct (isMounted g); simpl; try done;
    unfold render; destruct (currentQuestion questions g) as [q|] eqn:Hq;
    try done.
  - destruct (onDrop_same v g q Hq) as (g' & -> & _). done.
  - by repeat case_match.
Qed.

Lemma run_total evs g : is_Some (run questions settings canVibrate clientThrows g evs).
Proof.
  revert g. induction evs as [|ev evs IH]; intros g; simpl; [done|].
  destruct (step_total g ev) as [g' ->]. simpl. apply IH.
Qed.
End EventFacts.

(** ** The empty session *)

Lemma step_initial_empty (st : Settings) (cv ct : bool) (ev : Event) :
  step [] st cv ct initial ev = Some initial.
Proof.
  by destruct ev.
Qed.

Lemma run_initial_empty (st : Settings) (cv ct : bool) (evs : list Event) :
  run [] st cv ct initial evs = Some initial.
Proof.
  induction evs as [|ev evs IH]; simpl; [done|].
  rewrite step_initial_empty. simpl. exact IH.
Qed.

(** C7: when no question matches the subject and the level, the session
    shows the placeholder of lines 387-389 and stays on it: no event makes a
    handler throw, none changes the state, and the lookup of the current
    question answers undefined instead of failing. *)
Theorem empty_session_shows_placeholder
    (random : nat → Draw) (ALL_QUESTIONS : list Question)
    (subj : Subject) (lvl : Level) (st : Settings) (cv ct : bool)
    (evs : list Event) :
  filter (λ q, subject q = subj ∧ level q = lvl) ALL_QUESTIONS = [] →
  let questions := questions_of random ALL_QUESTIONS subj lvl in
  questions = [] ∧
  play questions st cv ct evs = Some initial ∧
  currentQuestion questions initial = None ∧
  render questions initial = Loading.
Proof.
  intros Hempty questions.
  assert (Hq : questions = []).
  { subst questions. unfold questions_of. by rewrite Hempty. }
  rewrite Hq. repeat split; try done.
  unfold play. apply run_initial_empty.
Qed.

Lemma empty_session_shows_placeholder_witness :
  filter (λ q, subject q = Portuguese ∧ level q = Two) [q_sum; q_pet] = [] ∧
  play (questions_of (λ _, mkDraw 1 1) [q_sum; q_pet] Portuguese Two)
       defaults true false [Drop "4"; ClickClose; TimerFires 1; ClickHome]
    = Some initial.
Proof.
  split; [reflexivity|].
  exact (proj1 (proj2 (empty_session_shows_placeholder (λ _, mkDraw 1 1)
    [q_sum; q_pet] Portuguese Two defaults true false
    [Drop "4"; ClickClose; TimerFires 1; ClickHome] eq_refl))).
Defined.

(** ** Reduced motion *)

Section ReducedMotion.
Variable questions : list Question.
Variable settings : Settings.
Variable canVibrate : bool.
Variable clientThrows : bool.
Hypothesis reduced : reduceMotion settings = true.

Lemma speak_same text g :
  same_picture g (speak settings text g) ∧
  currentIndex (speak settings text g) = currentIndex g ∧
  page (speak settings text g) = page g.
Proof.
  unfold speak.
  destruct (isTtsEnabled settings && negb (String.eqb text "")); [|by repeat split].
  repeat split; try done. intros Hg. by apply no_request_emit.
Qed.

(** With reduced motion the effect only speaks and sets the picture. *)
Lemma questionEffect_reduced g q :
  currentQuestion questions g = Some q →
  let g' := questionEffect questions settings clientThrows g in
  illustrationUrl g' = Some (src (illustration q)) ∧
  isGenerating g' = isGenerating g ∧ inflight g' = inflight g ∧
  isMounted g' = isMounted g ∧
  currentIndex g' = currentIndex g ∧ page g' = page g ∧
  (Forall no_request (effects g) → Forall no_request (effects g')).
Proof.
  intros Hq g'. subst g'. unfold questionEffect. rewrite Hq, reduced.
  destruct (speak_same (prompt q) g) as ((? & ? & ? & ? & ?) & ? & ?).
  simpl. by repeat split.
Qed.

Lemma questionEffect_still g :
  isGenerating g = false → inflight g = [] →
  Forall no_request (effects g) → (isMounted g = true → page g = GamePlay) →
  still questions (questionEffect questions settings clientThrows g).
Proof.
  intros Hgen Hinf Heff Hpage.
  destruct (currentQuestion questions g) as [q|] eqn:Hq.
  - destruct (questionEffect_reduced g q Hq) as (Hu & Hg & Hi & Hm & Hx & Hp & He).
    unfold still.
    split_and!; [congruence|congruence|by apply He|
                 |intros; rewrite Hp; apply Hpage; congruence].
    intros q'. unfold currentQuestion in *. rewrite Hx, Hq. congruence.
  - unfold questionEffect. rewrite Hq. unfold still. split_and!; try done.
    intros q'. by rewrite Hq.
Qed.

Lemma commit_still g after :
  still questions g → isMounted g = true → same_picture g after →
  currentIndex after = currentIndex g ∨ page after = page g →
  still questions (commit questions settings clientThrows g after).
Proof.
  intros (Hgen & Hinf & Heff & Hurl & Hpage) Hm (Hg & Hi & Hu & Hm' & He) Hidx.
  unfold commit. destruct (page after) eqn:Hp.
  1,2,4: destruct Hidx as [Hidx|Hidx];
    [ unfold still; simpl;
      split_and!; [congruence|congruence|by apply He| |done];
      intros q; unfold currentQuestion in *; simpl; rewrite Hidx, Hu; apply Hurl
    | rewrite Hpage in Hidx by done; congruence ].
  destruct (Nat.eqb_spec (currentIndex after) (currentIndex g)) as [Heq|Hne].
  - unfold still. split_and!; [congruence|congruence|by apply He| |done].
    intros q. unfold currentQuestion in *. rewrite Heq, Hu. apply Hurl.
  - apply questionEffect_still; try congruence. by apply He.
Qed.

Lemma step_still g ev g' :
  still questions g →
  step questions settings canVibrate clientThrows g ev = Some g' →
  still questions g'.
Proof.
  intros Hs Hstep.
  pose proof Hs as (Hgen & Hinf & Heff & Hurl & Hpage).
  destruct ev as [| |v| | |h|q' r]; simpl in Hstep.
  6:{ case_decide; simplify_eq; [|done].
      clear Hs. unfold hintTimeout, still, currentQuestion in *.
      destruct g as [? ? ? ? ? ? ? ? ? [] ? ? ? ?]; simpl in *;
        by split_and!. }
  6:{ rewrite Hinf in Hstep. case_decide as Hin; [by apply elem_of_nil in Hin|].
      by simplify_eq. }
  all: destruct (isMounted g) eqn:Hm; simpl in Hstep; [|by simplify_eq].
  all: unfold render in Hstep;
    destruct (currentQuestion questions g) as [q|] eqn:Hq; [|by simplify_eq].
  - simplify_eq. unfold still, currentQuestion in *. simpl.
    split_and!; try done; apply Hs.
  - simplify_eq. unfold still, currentQuestion in *. simpl.
    split_and!; try done; apply Hs.
  - destruct (onDrop_same questions canVibrate v g q Hq) as (g1 & Hd & Hsame & Hi & _).
    rewrite Hd in Hstep. simpl in Hstep. simplify_eq.
    apply commit_still; auto.
  - case_match; simplify_eq; [|done].
    destruct (handleCloseFeedback_same questions g) as (Hsame & Hi).
    apply commit_still; auto.
  - simplify_eq. apply commit_still; auto. by repeat split.
Qed.

Lemma run_still evs g :
  still questions g →
  ∃ g', run questions settings canVibrate clientThrows g evs = Some g' ∧ still questions g'.
Proof.
  revert g. induction evs as [|ev evs IH]; intros g Hs; simpl; [by eexists|].
  destruct (step_total questions settings canVibrate clientThrows g ev) as [g1 Hstep].
  rewrite Hstep. simpl. apply IH. by eapply step_still.
Qed.

Lemma mount_still : still questions (mount questions settings clientThrows).
Proof.
  unfold mount. by apply questionEffect_still.
Qed.

Lemma still_displayed g q :
  still questions g → currentQuestion questions g = Some q →
  displayed questions g = Some (src (illustration q)).
Proof.
  intros (Hgen & _ & _ & Hurl & _) Hq.
  unfold displayed, render. rewrite Hq, Hgen, (Hurl q Hq). simpl.
  by destruct (String.eqb_spec (src (illustration q)) "") as [->|].
Qed.
End ReducedMotion.

(** C8: with reduced motion enabled, starting a question sets the picture to
    the static illustration of the question, leaves the generating flag as it
    is and sends no illustration request; and in a whole session, whatever
    the events, the flag is never true, no request is sent or awaited, and
    the picture shown for the current question is its static illustration. *)
Theorem reduced_motion_never_requests
    (questions : list Question) (settings : Settings)
    (canVibrate clientThrows : bool) :
  reduceMotion settings = true →
  (∀ g q, currentQuestion questions g = Some q →
     let g' := questionEffect questions settings clientThrows g in
     illustrationUrl g' = Some (src (illustration q)) ∧
     isGenerating g' = isGenerating g ∧ inflight g' = inflight g ∧
     (Forall no_request (effects g) → Forall no_request (effects g'))) ∧
  (∀ evs, ∃ g,
     play questions settings canVibrate clientThrows evs = Some g ∧
     isGenerating g = false ∧ inflight g = [] ∧
     Forall no_request (effects g) ∧
     ∀ q, currentQuestion questions g = Some q →
          displayed questions g = Some (src (illustration q))).
Proof.
  intros Hr. split.
  - intros g q Hq.
    destruct (questionEffect_reduced questions settings clientThrows Hr g q Hq)
      as (? & ? & ? & _ & _ & _ & ?).
    by repeat split.
  - intros evs.
    destruct (run_still questions settings canVibrate clientThrows Hr evs
                (mount questions settings clientThrows)
                (mount_still questions settings clientThrows Hr))
      as (g & Hrun & Hs).
    exists g. split; [exact Hrun|].
    pose proof Hs as (? & ? & ? & _).
    repeat split; try done. intros q. by apply still_displayed.
Qed.

Lemma reduced_motion_never_requests_witness :
  reduceMotion calm = true ∧
  ∃ g, play [q_pet; q_sum] calm true false
         [Drop "dog"; ClickClose; Drop "cat"; ClickClose]
         = Some g ∧ isGenerating g = false ∧ inflight g = [].
Proof.
  split; [reflexivity|].
  destruct (proj2 (reduced_motion_never_requests [q_pet; q_sum] calm true false
                     eq_refl)
              [Drop "dog"; ClickClose; Drop "cat"; ClickClose])
    as (g & Hg & Hgen & Hinf & _).
  exists g. split; [exact Hg|]. split; [exact Hgen|exact Hinf].
Defined.

(** ** One drop runs [handleDrop] twice *)

Section DropFacts.
Variable questions : list Question.
Variable canVibrate : bool.

(** A drop of the correct answer adds two points. *)
Lemma onDrop_correct_scores_twice g q :
  currentQuestion questions g = Some q →
  ∃ g', onDrop questions canVibrate (correctAnswer q) g = Some g' ∧
    score g' = S (S (score g)) ∧ feedback g' = Some (mkFeedback true true) ∧
    timers g' = timers g.
Proof.
  intros Hq. unfold onDrop.
  destruct (handleDrop_correct questions canVibrate g q Hq)
    as (g1 & -> & Hs1 & _ & Hi1 & Ht1 & _). simpl.
  assert (Hq1 : currentQuestion questions g1 = Some q).
  { unfold currentQuestion in *. by rewrite Hi1. }
  destruct (handleDrop_correct questions canVibrate g1 q Hq1)
    as (g2 & -> & Hs2 & Hf2 & _ & Ht2 & _).
  eexists. split; [done|]. split_and!; congruence.
Qed.

(** A drop of any other value schedules two hint timers and keeps the
    handle of the second only. *)
Lemma onDrop_incorrect_two_timers g q v :
  currentQuestion questions g = Some q → v ≠ correctAnswer q →
  ∃ g', onDrop questions canVibrate v g = Some g' ∧
    score g' = score g ∧ feedback g' = Some (mkFeedback false true) ∧
    timers g' = timers g ++ [mkTimer (nextTimer g) 1000;
                             mkTimer (S (nextTimer g)) 1000] ∧
    hintTimeoutRef g' = Some (S (nextTimer g)).
Proof.
  intros Hq Hv. unfold onDrop.
  destruct (handleDrop_incorrect questions canVibrate g q v Hq Hv)
    as (g1 & -> & Hs1 & _ & Hi1 & Ht1 & _ & Hn1). simpl.
  assert (Hq1 : currentQuestion questions g1 = Some q).
  { unfold currentQuestion in *. by rewrite Hi1. }
  destruct (handleDrop_incorrect questions canVibrate g1 q v Hq1 Hv)
    as (g2 & -> & Hs2 & Hf2 & _ & Ht2 & Hr2 & _).
  eexists. split; [done|]. split_and!; try congruence.
  rewrite Ht2, Ht1, Hn1, <- app_assoc. done.
Qed.
End DropFacts.

(** C1 (the code departs from the claim): in a session of one question, one
    drop of the correct answer brings the score to 2, above the number of
    questions. *)
Theorem score_exceeds_question_count :
  ∃ g, play [q_sum] defaults false false [Drop "4"] = Some g ∧
       score g = 2 ∧ length [q_sum] = 1 ∧ ¬ score g ≤ length [q_sum].
Proof. eexists. split; [vm_compute; reflexivity|]. simpl. split_and!; [done|done|lia]. Qed.

(** C2 (the code departs from the claim): one drop of a wrong value leaves
    two hint timers scheduled; the ref holds handle 2 and timer 1, scheduled
    first, is not cancelled. *)
Theorem drop_leaves_two_timers :
  ∃ g, play [q_sum] defaults false false [Drop "3"] = Some g ∧
       feedback g = Some (mkFeedback false true) ∧
       timers g = [mkTimer 1 1000; mkTimer 2 1000] ∧
       hintTimeoutRef g = Some 2.
Proof. eexists. split; [vm_compute; reflexivity|]. by split_and!. Qed.

(** C3 (the code departs from the claim): the only question answered
    correctly, the session ends and the alert reports 3 out of 1. *)
Theorem final_alert_off_by_one :
  ∃ g, play [q_sum] defaults false false [Drop "4"; ClickClose] = Some g ∧
       page g = Home ∧ isMounted g = false ∧ score g = 2 ∧
       effects g = [GenerateContent q_sum; Alert 3 1].
Proof. eexists. split; [vm_compute; reflexivity|]. by split_and!. Qed.

(** C4 (the code departs from the claim): after a wrong drop, a correct drop
    and the dismissal that advances to the second question, hint timer 1 is
    still scheduled; when it fires, the hint of the second question shows. *)
Theorem stale_hint_after_advance :
  ∃ g g',
    play [q_pet; q_sum] defaults false false
      [Drop "dog"; ClickClose; Drop "cat"; ClickClose] = Some g ∧
    currentIndex g = 1 ∧ feedback g = None ∧ showHint g = false ∧
    isDragOver g = false ∧ pending g = [1] ∧
    step [q_pet; q_sum] defaults false false g (TimerFires 1) = Some g' ∧
    currentIndex g' = 1 ∧ showHint g' = true.
Proof.
  eexists. eexists. split; [vm_compute; reflexivity|].
  by split_and!.
Qed.

(** C9 (the code departs from the claim): the request of the first question
    fails after the player has moved on to the second.  The generating flag
    is cleared although the request of the second question is still
    awaited, and the picture shown on the second question is the static
    illustration of the first one, not its own. *)
Theorem stale_failure_shows_previous_picture :
  ∃ g,
    play [q_pet; q_sum] defaults false false
      [Drop "cat"; ClickClose; Settles q_pet ImageFails] = Some g ∧
    isMounted g = true ∧
    currentQuestion [q_pet; q_sum] g = Some q_sum ∧
    isGenerating g = false ∧ inflight g = [q_sum] ∧
    illustrationUrl g = Some (src (illustration q_pet)) ∧
    displayed [q_pet; q_sum] g = Some "pet.png" ∧
    src (illustration q_sum) = "sum.png".
Proof. eexists. split; [vm_compute; reflexivity|]. by split_and!. Qed.

(** * Further properties *)

(** ** Stars *)

Lemma Stars_S (count total : nat) :
  Stars count (S total) = Stars count total ++ [bool_decide (total < count)].
Proof. unfold Stars. by rewrite seq_S, fmap_app. Qed.

(** X1: the star row has [total] stars: the first [min count total] are
    filled and the others are not, also when [count] exceeds [total]. *)
Theorem Stars_filled_then_empty (count total : nat) :
  Stars count total
  = replicate (count `min` total) true ++ replicate (total - count) false.
Proof.
  induction total as [|total IH]; [by rewrite Nat.min_0_r|].
  rewrite Stars_S, IH.
  destruct (decide (total < count)) as [Hlt|Hge].
  - rewrite bool_decide_eq_true_2 by done.
    replace (count `min` S total) with (S total) by lia.
    replace (count `min` total) with total by lia.
    replace (total - count) with 0 by lia.
    replace (S total - count) with 0 by lia.
    rewrite replicate_S_end. simpl (replicate 0 _). by rewrite !app_nil_r.
  - rewrite bool_decide_eq_false_2 by done.
    replace (count `min` S total) with count by lia.
    replace (count `min` total) with count by lia.
    replace (S total - count) with (S (total - count)) by lia.
    by rewrite replicate_S_end, app_assoc.
Qed.

(** ** toggleSetting *)

(** X2: a toggle negates its own flag and no other; toggling twice gives
    the settings back, and two toggles can be done in either order. *)
Theorem toggleSetting_flips_one_flag (k k' : SettingKey) (s : Settings) :
  getSetting k' (toggleSetting k s)
    = (if decide (k' = k) then negb (getSetting k' s) else getSetting k' s) ∧
  toggleSetting k (toggleSetting k s) = s ∧
  toggleSetting k (toggleSetting k' s) = toggleSetting k' (toggleSetting k s).
Proof.
  destruct s as [[] [] []], k, k'; by split_and!.
Qed.

(** ** useLocalStorage *)

Section StorageFacts.
Context {T : Type}.
Variable parse : string → option T.
Variable stringify : T → string.

Lemma useLocalStorage_storage key initialValue ls :
  storage (useLocalStorage parse key initialValue ls) = ls.
Proof.
  unfold useLocalStorage. by repeat case_match.
Qed.

(** Reading back what [setValue] has written. *)
Lemma useLocalStorage_setValue key value h initialValue :
  blocked (storage h) = false → full (storage h) = false →
  parse (stringify (storedValue (setValue stringify key value h)))
    = Some (storedValue (setValue stringify key value h)) →
  stringify (storedValue (setValue stringify key value h)) ≠ "" →
  useLocalStorage parse key initialValue (storage (setValue stringify key value h))
  = mkHook (storedValue (setValue stringify key value h))
      (storage (setValue stringify key value h)) 0.
Proof.
  unfold setValue. intros Hb Hf. rewrite Hb, Hf. simpl.
  intros Hparse Hne. unfold useLocalStorage. simpl. rewrite ?Hb.
  rewrite lookup_insert_eq. apply String.eqb_neq in Hne. by rewrite Hne, Hparse.
Qed.
End StorageFacts.

(** X3: the hook starts from [initialValue], without an error, when the
    storage works and has no item, or an empty one, under the key; it never
    writes to the storage on its own. *)
Theorem useLocalStorage_no_item {T : Type} (parse : string → option T)
    (key : string) (initialValue : T) (ls : LocalStorage) :
  blocked ls = false →
  items ls !! key = None ∨ items ls !! key = Some "" →
  useLocalStorage parse key initialValue ls = mkHook initialValue ls 0.
Proof.
  intros Hb Hitem. unfold useLocalStorage. rewrite Hb.
  by destruct Hitem as [-> | ->].
Qed.

Lemma useLocalStorage_no_item_witness :
  blocked full_storage = false ∧
  useLocalStorage undigits "apprenda-settings" defaults full_storage
    = mkHook defaults full_storage 0.
Proof.
  split; [reflexivity|].
  exact (useLocalStorage_no_item undigits "apprenda-settings" defaults full_storage
           eq_refl (or_introl eq_refl)).
Defined.

(** X4: when the storage throws, or the item under the key does not parse,
    the hook starts from [initialValue], logs one error, and leaves the
    storage as it is. *)
Theorem useLocalStorage_failure {T : Type} (parse : string → option T)
    (key : string) (initialValue : T) (ls : LocalStorage) :
  blocked ls = true ∨
  (∃ item, items ls !! key = Some item ∧ item ≠ "" ∧ parse item = None) →
  useLocalStorage parse key initialValue ls = mkHook initialValue ls 1.
Proof.
  intros [Hb | (item & Hitem & Hne & Hparse)]; unfold useLocalStorage.
  - by rewrite Hb.
  - destruct (blocked ls); [done|]. rewrite Hitem.
    apply String.eqb_neq in Hne. by rewrite Hne, Hparse.
Qed.

Lemma useLocalStorage_failure_witness :
  (∃ item, items corrupt_storage !! "apprenda-settings" = Some item ∧
           item ≠ "" ∧ undigits item = None) ∧
  useLocalStorage undigits "apprenda-settings" defaults corrupt_storage
    = mkHook defaults corrupt_storage 1.
Proof.
  assert (H : ∃ item, items corrupt_storage !! "apprenda-settings" = Some item ∧
                      item ≠ "" ∧ undigits item = None).
  { exists "oops". split; [reflexivity|]. split; [discriminate|reflexivity]. }
  split; [exact H|].
  exact (useLocalStorage_failure undigits "apprenda-settings" defaults
           corrupt_storage (or_intror H)).
Defined.

(** X5: what [setValue] puts under the key is what the hook starts from
    after a reload, whatever [initialValue] is then, provided the storage
    works and the value survives stringify and parse; the items under other
    keys are not touched. *)
Theorem setValue_then_reload {T : Type} (parse : string → option T)
    (stringify : T → string) (key : string) (value : SetStateAction T)
    (h : Hook T) (initialValue : T) :
  blocked (storage h) = false → full (storage h) = false →
  let h' := setValue stringify key value h in
  parse (stringify (storedValue h')) = Some (storedValue h') →
  stringify (storedValue h') ≠ "" →
  storedValue (useLocalStorage parse key initialValue (storage h')) = storedValue h' ∧
  logged (useLocalStorage parse key initialValue (storage h')) = 0 ∧
  ∀ key', key' ≠ key → items (storage h') !! key' = items (storage h) !! key'.
Proof.
  intros Hb Hf h' Hparse Hne. subst h'.
  rewrite (useLocalStorage_setValue parse stringify key value h initialValue
             Hb Hf Hparse Hne).
  split_and!; try done.
  intros key' Hk. unfold setValue. rewrite Hb, Hf. simpl.
  by rewrite lookup_insert_ne.
Qed.

Lemma setValue_then_reload_witness :
  blocked (storage (mkHook defaults calm_storage 0)) = false ∧
  storedValue
    (useLocalStorage undigits "apprenda-settings" defaults
       (storage (setValue digits "apprenda-settings"
                   (Updater (toggleSetting isTtsEnabled_key))
                   (mkHook calm calm_storage 0))))
  = mkSettings true false true.
Proof.
  split; [reflexivity|].
  exact (proj1 (setValue_then_reload undigits digits "apprenda-settings"
                  (Updater (toggleSetting isTtsEnabled_key))
                  (mkHook calm calm_storage 0) defaults
                  eq_refl eq_refl eq_refl ltac:(discriminate))).
Defined.

(** X6: when the storage throws or is full, [setValue] still changes the
    state of the hook, logs one error and leaves the storage as it was, so
    the new value is lost at the next reload. *)
Theorem setValue_storage_failure {T : Type} (stringify : T → string)
    (key : string) (value : SetStateAction T) (h : Hook T) :
  blocked (storage h) = true ∨ full (storage h) = true →
  let h' := setValue stringify key value h in
  storedValue h'
    = match value with Updater f => f (storedValue h) | Value v => v end ∧
  storage h' = storage h ∧
  logged h' = S (logged h).
Proof.
  intros Hfail h'. subst h'. unfold setValue.
  assert (blocked (storage h) || full (storage h) = true) as ->.
  { destruct Hfail as [-> | ->]; [done|]. apply orb_true_r. }
  done.
Qed.

Lemma setValue_storage_failure_witness :
  full (storage (mkHook defaults full_storage 0)) = true ∧
  storedValue (setValue digits "apprenda-settings" (Value calm)
                 (mkHook defaults full_storage 0)) = calm ∧
  storage (setValue digits "apprenda-settings" (Value calm)
             (mkHook defaults full_storage 0)) = full_storage.
Proof.
  split; [reflexivity|].
  pose proof (setValue_storage_failure digits "apprenda-settings" (Value calm)
                (mkHook defaults full_storage 0) (or_intror eq_refl))
    as (Hv & Hs & _).
  split; [exact Hv|exact Hs].
Defined.

(** ** App *)

Section AppFacts.
Variable parse : string → option Settings.
Variable stringify : Settings → string.

Lemma app_step_consistent a c :
  app_consistent a → app_consistent (App.step stringify a c).
Proof.
  destruct a as [p s l h d]. unfold app_consistent. simpl.
  destruct c, p; simpl; intros [Hs Hl]; simpl in *; subst;
    try (destruct Hs as [? ->]); try (destruct Hl as [? ->]); simpl; eauto.
Qed.

Lemma app_run_consistent cs a :
  app_consistent a → app_consistent (App.run stringify a cs).
Proof.
  revert a. induction cs as [|c cs IH]; intros a Ha; [done|].
  apply IH. by apply app_step_consistent.
Qed.

Lemma app_consistent_render a :
  app_consistent a →
  App.renderPage a =
    match App.page a, App.subject a, App.level a with
    | GamePlay, Some s, Some l => GameScreen s l
    | LevelSelection, Some s, _ => LevelSelectionScreen s
    | SettingsPage, _, _ => SettingsScreen
    | _, _, _ => HomeScreen
    end ∧
  (App.renderPage a = HomeScreen → App.page a = Home).
Proof.
  destruct a as [p s l h d]. unfold app_consistent, App.renderPage. simpl.
  destruct p; intros [Hs Hl]; simpl in *; subst;
    try (destruct Hs as [? ->]); try (destruct Hl as [? ->]); done.
Qed.
End AppFacts.

(** X7: whatever the user clicks after a page load, the level selection
    has a subject, the game has a subject and a level, and the home and
    settings pages have none; so [renderPage] never takes one of its
    fallbacks: the home screen is only shown on the home page. *)
Theorem app_pages_have_their_choices
    (parse : string → option Settings) (stringify : Settings → string)
    (ls : LocalStorage) (cs : list Click) :
  let a := App.run stringify (App.start parse ls) cs in
  match App.page a with
  | GamePlay => ∃ s l, App.subject a = Some s ∧ App.level a = Some l ∧
                       App.renderPage a = GameScreen s l
  | LevelSelection => ∃ s, App.subject a = Some s ∧ App.level a = None ∧
                           App.renderPage a = LevelSelectionScreen s
  | SettingsPage => App.subject a = None ∧ App.level a = None ∧
                    App.renderPage a = SettingsScreen
  | Home => App.subject a = None ∧ App.level a = None ∧
            App.renderPage a = HomeScreen
  end.
Proof.
  intros a.
  assert (Ha : app_consistent a).
  { subst a. apply app_run_consistent. by split. }
  clearbody a. destruct a as [p s l h d].
  unfold app_consistent, App.renderPage in *. simpl in *.
  destruct p; destruct Ha as [Hs Hl]; subst;
    try (destruct Hs as [? ->]); try (destruct Hl as [? ->]); eauto.
Qed.

Lemma app_step_settings (stringify : Settings → string) (a : App.State) (c : Click) :
  App.settings (App.step stringify a c) = App.settings a ∨
  (App.page a = SettingsPage ∧
   ∃ key, c = Toggle key ∧
          App.settings (App.step stringify a c)
          = setValue stringify "apprenda-settings" (Updater (toggleSetting key))
              (App.settings a)).
Proof.
  destruct a as [p s l h d]. unfold App.step, App.handle, App.renderPage. simpl.
  destruct c, p, s, l; simpl; eauto.
Qed.

(** X8: the settings can only change through a switch of the settings
    page: every other click, and a switch that is not on the screen, leaves
    the settings, their storage and the error count as they are. *)
Theorem app_settings_change_only_by_toggle
    (stringify : Settings → string) (a : App.State) (c : Click) :
  App.settings (App.step stringify a c) ≠ App.settings a →
  App.page a = SettingsPage ∧ ∃ key, c = Toggle key.
Proof.
  intros Hne.
  destruct (app_step_settings stringify a c) as [Heq|(Hp & key & -> & _)];
    [done|eauto].
Qed.

Lemma app_settings_change_only_by_toggle_witness :
  App.settings (App.step digits (App.mkState SettingsPage None None
                                   (mkHook defaults calm_storage 0) false)
                  (Toggle reduceMotion_key))
    ≠ mkHook defaults calm_storage 0 ∧
  App.page (App.mkState SettingsPage None None
              (mkHook defaults calm_storage 0) false) = SettingsPage.
Proof.
  assert (H : App.settings
                (App.step digits (App.mkState SettingsPage None None
                                    (mkHook defaults calm_storage 0) false)
                   (Toggle reduceMotion_key))
              ≠ mkHook defaults calm_storage 0) by (simpl; discriminate).
  split; [exact H|].
  exact (proj1 (app_settings_change_only_by_toggle digits
                  (App.mkState SettingsPage None None
                     (mkHook defaults calm_storage 0) false)
                  (Toggle reduceMotion_key) H)).
Defined.

Section PersistFacts.
Variable parse : string → option Settings.
Variable stringify : Settings → string.
Hypothesis parse_stringify : ∀ s, parse (stringify s) = Some s.
Hypothesis stringify_nonempty : ∀ s, stringify s ≠ "".

(** The storage works and a reload would give the settings in use. *)
Lemma app_step_persists a c :
  blocked (storage (App.settings a)) = false →
  full (storage (App.settings a)) = false →
  reloaded parse a = storedValue (App.settings a) →
  let a' := App.step stringify a c in
  blocked (storage (App.settings a')) = false ∧
  full (storage (App.settings a')) = false ∧
  reloaded parse a' = storedValue (App.settings a').
Proof.
  intros Hb Hf Hr a'.
  destruct (app_step_settings stringify a c) as [Heq|(Hp & key & _ & Heq)];
    fold a' in Heq; unfold reloaded in *; rewrite Heq.
  - done.
  - pose proof (useLocalStorage_setValue parse stringify "apprenda-settings"
                  (Updater (toggleSetting key)) (App.settings a)
                  (mkSettings false false false) Hb Hf
                  (parse_stringify _) (stringify_nonempty _)) as Hv.
    split_and!; [| |unfold App.start; simpl; by rewrite Hv];
      unfold setValue; by rewrite Hb, Hf.
Qed.

(** Whatever is under the key was written by [stringify]. *)
Lemma app_step_written a c :
  items (storage (App.settings a)) !! "apprenda-settings" = None ∨
  (∃ s, items (storage (App.settings a)) !! "apprenda-settings"
        = Some (stringify s)) →
  items (storage (App.settings (App.step stringify a c))) !! "apprenda-settings"
  = None ∨
  (∃ s, items (storage (App.settings (App.step stringify a c)))
          !! "apprenda-settings" = Some (stringify s)).
Proof.
  intros Hitem.
  destruct (app_step_settings stringify a c) as [->|(_ & key & _ & ->)]; [done|].
  unfold setValue.
  destruct (blocked (storage (App.settings a)) || full (storage (App.settings a)));
    simpl; [done|].
  right. eexists. by rewrite lookup_insert_eq.
Qed.

Lemma app_run_written cs a :
  items (storage (App.settings a)) !! "apprenda-settings" = None ∨
  (∃ s, items (storage (App.settings a)) !! "apprenda-settings"
        = Some (stringify s)) →
  items (storage (App.settings (App.run stringify a cs))) !! "apprenda-settings"
  = None ∨
  (∃ s, items (storage (App.settings (App.run stringify a cs)))
          !! "apprenda-settings" = Some (stringify s)).
Proof.
  revert a. induction cs as [|c cs IH]; intros a Hitem; [done|].
  apply IH. by apply app_step_written.
Qed.

Lemma app_run_persists cs a :
  blocked (storage (App.settings a)) = false →
  full (storage (App.settings a)) = false →
  reloaded parse a = storedValue (App.settings a) →
  reloaded parse (App.run stringify a cs) =
    storedValue (App.settings (App.run stringify a cs)).
Proof.
  revert a. induction cs as [|c cs IH]; intros a Hb Hf Hr; [done|].
  destruct (app_step_persists a c Hb Hf Hr) as (? & ? & ?). by apply IH.
Qed.
End PersistFacts.

(** X9: when the storage works, the settings survive stringify and parse,
    and the item under the key, if there is one, was written by the
    application, the settings in use after any clicks are the settings the
    next page load starts from, and the dark theme of that load is the one
    now shown. *)
Theorem app_settings_survive_reload
    (parse : string → option Settings) (stringify : Settings → string)
    (ls : LocalStorage) (cs : list Click) :
  (∀ s, parse (stringify s) = Some s) → (∀ s, stringify s ≠ "") →
  blocked ls = false → full ls = false →
  items ls !! "apprenda-settings" = None ∨
  (∃ s, items ls !! "apprenda-settings" = Some (stringify s)) →
  let a := App.run stringify (App.start parse ls) cs in
  let a' := App.start parse (storage (App.settings a)) in
  storedValue (App.settings a') = storedValue (App.settings a) ∧
  App.dark a' = App.dark a ∧
  App.dark a = isHighContrast (storedValue (App.settings a)) ∧
  (items (storage (App.settings a)) !! "apprenda-settings" = None ∨
   ∃ s, items (storage (App.settings a)) !! "apprenda-settings"
        = Some (stringify s)).
Proof.
  intros Hps Hne Hb Hf Hitem a a'.
  assert (Hr : reloaded parse a = storedValue (App.settings a)).
  { apply app_run_persists; try done.
    - simpl. by rewrite useLocalStorage_storage.
    - simpl. by rewrite useLocalStorage_storage.
    - unfold reloaded. simpl. by rewrite useLocalStorage_storage. }
  assert (Hd : App.dark a = isHighContrast (storedValue (App.settings a))).
  { subst a. destruct cs as [|c cs] using rev_ind; [done|].
    unfold App.run. by rewrite foldl_app. }
  split; [exact Hr|]. split; [by rewrite Hd, <- Hr|]. split; [exact Hd|].
  subst a. apply app_run_written. simpl. by rewrite useLocalStorage_storage.
Qed.

Lemma settings_of_json_settings_json (s : Settings) :
  settings_of_json (settings_json s) = Some s.
Proof. by destruct s as [[] [] []]. Qed.

Lemma settings_json_nonempty (s : Settings) : settings_json s ≠ "".
Proof. by destruct s as [[] [] []]. Qed.

Lemma app_settings_survive_reload_witness :
  blocked json_storage = false ∧ full json_storage = false ∧
  (∃ s, items json_storage !! "apprenda-settings" = Some (settings_json s)) ∧
  storedValue
    (App.settings
       (App.start settings_of_json
          (storage (App.settings
                      (App.run settings_json
                         (App.start settings_of_json json_storage)
                         [OpenSettings; Toggle isHighContrast_key; Back])))))
  = mkSettings false true true.
Proof.
  assert (H : ∃ s, items json_storage !! "apprenda-settings"
                   = Some (settings_json s)) by (by exists calm).
  split; [reflexivity|]. split; [reflexivity|]. split; [exact H|].
  exact (proj1 (app_settings_survive_reload settings_of_json settings_json
                  json_storage [OpenSettings; Toggle isHighContrast_key; Back]
                  settings_of_json_settings_json settings_json_nonempty
                  eq_refl eq_refl (or_intror H))).
Defined.

(** ** Sessions *)

Section SessionFacts.
Variable questions : list Question.
Variable settings : Settings.
Variable canVibrate : bool.
Variable clientThrows : bool.

(** What one event can do to the game. *)
Lemma step_inv g ev g' :
  step questions settings canVibrate clientThrows g ev = Some g' →
  g' = g ∨
  (∃ h, ev = TimerFires h ∧ h ∈ pending g ∧ g' = hintTimeout h g) ∨
  (∃ q r, ev = Settles q r ∧ q ∈ inflight g ∧
          g' = generateIllustration_settle q r
                 (setInflight (settled q (inflight g)) g)) ∨
  (isMounted g = true ∧ ∃ q, currentQuestion questions g = Some q ∧
     ((∃ b, g' = setIsDragOver b g) ∨
      (∃ v g1 g2, ev = Drop v ∧
         handleDrop questions canVibrate v g = Some g1 ∧
         handleDrop questions canVibrate v g1 = Some g2 ∧
         g' = commit questions settings clientThrows g g2) ∨
      (ev = ClickClose ∧ (∃ fb, feedback g = Some fb ∧ show fb = true) ∧
       g' = commit questions settings clientThrows g (handleCloseFeedback questions g)) ∨
      (ev = ClickHome ∧ g' = commit questions settings clientThrows g (navigateHome g)))).
Proof.
  intros Hstep.
  destruct ev as [| |v| | |h|q' r]; simpl in Hstep.
  6:{ case_decide; simplify_eq; [|by left]. right; left. eauto. }
  6:{ case_decide; simplify_eq; [|by left]. right; right; left. eauto. }
  all: destruct (isMounted g) eqn:Hm; simpl in Hstep; [|simplify_eq; by left].
  all: unfold render in Hstep;
    destruct (currentQuestion questions g) as [q|] eqn:Hq; [|simplify_eq; by left].
  - simplify_eq. right; right; right. split; [done|]. exists q. split; [done|].
    left. eauto.
  - simplify_eq. right; right; right. split; [done|]. exists q. split; [done|].
    left. eauto.
  - right; right; right. split; [done|]. exists q. split; [done|].
    right; left. unfold onDrop in Hstep.
    destruct (handleDrop questions canVibrate v g) as [g1|] eqn:H1; [|done].
    simpl in Hstep.
    destruct (handleDrop questions canVibrate v g1) as [g2|] eqn:H2; [|done].
    simpl in Hstep. simplify_eq. eauto 10.
  - destruct (feedback g) as [fb|] eqn:Hfb; [|simplify_eq; by left].
    destruct (show fb) eqn:Hshow; simplify_eq; [|by left].
    right; right; right. split; [done|]. exists q. split; [done|].
    right; right; left. eauto 10.
  - simplify_eq. right; right; right. split; [done|]. exists q. split; [done|].
    right; right; right. eauto.
Qed.

(** [commit] touches the mounted flag, or what the question effect
    touches: the picture, the requests and the effects. *)
Lemma commit_fields before after :
  let g := commit questions settings clientThrows before after in
  page g = page after ∧ currentIndex g = currentIndex after ∧
  score g = score after ∧ feedback g = feedback after ∧
  showHint g = showHint after ∧ isDragOver g = isDragOver after ∧
  timers g = timers after ∧ nextTimer g = nextTimer after ∧
  hintTimeoutRef g = hintTimeoutRef after.
Proof.
  unfold commit, questionEffect, generateIllustration, speak.
  destruct after as [p i s d f sh u ge r m ts n inf eff]. simpl.
  repeat case_match; done.
Qed.

Lemma handleDrop_score v g g1 :
  handleDrop questions canVibrate v g = Some g1 →
  score g ≤ score g1 ≤ S (score g) ∧ currentIndex g1 = currentIndex g ∧
  page g1 = page g ∧ isMounted g1 = isMounted g.
Proof.
  unfold handleDrop, vibrate, setTimeout.
  destruct g as [p i s d f sh u ge r m ts n inf eff]. simpl.
  intros Hd. repeat (case_match; simplify_eq/=); split_and!; try done; lia.
Qed.

Lemma handleCloseFeedback_score g :
  let g' := handleCloseFeedback questions g in
  score g' = score g ∧
  (currentIndex g' = currentIndex g ∨
   currentIndex g' = S (currentIndex g) ∧ page g' = page g ∧
   S (currentIndex g) < length questions ∧ feedback_correct g = true) ∧
  isMounted g' = isMounted g.
Proof.
  unfold handleCloseFeedback, resetAttemptState, clearTimeout, navigateHome.
  destruct g as [p i s d f sh u ge r m ts n inf eff]. simpl.
  destruct (feedback_correct _) eqn:Hc; simpl.
  2:{ repeat case_match; split_and!; try done; by left. }
  destruct (Z.ltb_spec (Z.of_nat i) (Z.of_nat (length questions) - 1)) as [Hlt|Hge];
    simpl; repeat case_match; split_and!; try done; try (by left);
    right; split_and!; try done; lia.
Qed.

Lemma step_monotone g ev g' :
  step questions settings canVibrate clientThrows g ev = Some g' →
  score g ≤ score g' ∧ currentIndex g ≤ currentIndex g'.
Proof.
  intros Hstep.
  destruct (step_inv g ev g' Hstep)
    as [->|[(h & -> & _ & ->)|[(q & r & -> & _ & ->)|(Hm & q & Hq & Hcase)]]].
  - done.
  - unfold hintTimeout. simpl. by destruct (isMounted g).
  - unfold generateIllustration_settle.
    destruct g as [p i s d f sh u ge rf m ts n inf eff]. simpl.
    by repeat case_match.
  - destruct Hcase as [(b & ->)|[(v & g1 & g2 & -> & H1 & H2 & ->)
                               |[(-> & _ & ->)|(-> & ->)]]].
    + done.
    + destruct (commit_fields g g2) as (_ & -> & -> & _).
      destruct (handleDrop_score v g g1 H1) as (? & ? & _).
      destruct (handleDrop_score v g1 g2 H2) as (? & ? & _). lia.
    + match goal with |- context [commit _ _ _ _ ?a] =>
        destruct (commit_fields g a) as (_ & -> & -> & _) end.
      destruct (handleCloseFeedback_score g) as (-> & [->|(-> & _)] & _); lia.
    + match goal with |- context [commit _ _ _ _ ?a] =>
        destruct (commit_fields g a) as (_ & -> & -> & _) end. done.
Qed.
(** The effects of [handleDrop]: at most one vibration. *)
Lemma handleDrop_effects v g g1 :
  handleDrop questions canVibrate v g = Some g1 →
  (effects g1 = effects g ∨
   canVibrate = true ∧
   (effects g1 = effects g ++ [Vibrate [100]] ∨
    effects g1 = effects g ++ [Vibrate [200; 50; 200]])) ∧
  isGenerating g1 = isGenerating g ∧ inflight g1 = inflight g ∧
  illustrationUrl g1 = illustrationUrl g.
Proof.
  unfold handleDrop, vibrate, setTimeout.
  destruct g as [p i s d f sh u ge r m ts n inf eff]. simpl.
  intros Hd. repeat (case_match; simplify_eq/=); split_and!; try done;
    try (by left); right; split; try done; first [by left | by right].
Qed.

(** The three ways [handleCloseFeedback] can go: stay, advance, or end. *)
Lemma handleCloseFeedback_cases g :
  let g' := handleCloseFeedback questions g in
  (score g' = score g ∧ isMounted g' = isMounted g ∧
   isGenerating g' = isGenerating g ∧ inflight g' = inflight g ∧
   illustrationUrl g' = illustrationUrl g ∧ feedback g' = None) ∧
  ((currentIndex g' = currentIndex g ∧ page g' = page g ∧
    effects g' = effects g ∧ feedback_correct g = false) ∨
   (currentIndex g' = S (currentIndex g) ∧ page g' = page g ∧
    effects g' = effects g ∧ feedback_correct g = true ∧
    S (currentIndex g) < length questions) ∨
   (currentIndex g' = currentIndex g ∧ page g' = Home ∧
    effects g' = effects g ++ [Alert (score g + 1) (length questions)] ∧
    feedback_correct g = true ∧ length questions ≤ S (currentIndex g))).
Proof.
  unfold handleCloseFeedback, resetAttemptState, clearTimeout, navigateHome.
  destruct g as [p i s d f sh u ge r m ts n inf eff]. simpl.
  destruct (feedback_correct _) eqn:Hc; simpl.
  2:{ split; [by repeat case_match|]. left. by repeat case_match. }
  destruct (Z.ltb_spec (Z.of_nat i) (Z.of_nat (length questions) - 1)) as [Hlt|Hge];
    simpl.
  - split; [by repeat case_match|]. right; left.
    repeat case_match; split_and!; try done; lia.
  - split; [by repeat case_match|]. right; right.
    repeat case_match; split_and!; try done; lia.
Qed.

(** What the question effect does, by the settings. *)
Lemma questionEffect_cases g :
  let g' := questionEffect questions settings clientThrows g in
  (page g' = page g ∧ currentIndex g' = currentIndex g ∧ score g' = score g ∧
   isMounted g' = isMounted g) ∧
  match currentQuestion questions g with
  | None => g' = g
  | Some q =>
      ∃ spoken, (spoken = [] ∨ spoken = [Speak (prompt q)] ∧
                               isTtsEnabled settings = true ∧ prompt q ≠ "") ∧
        if reduceMotion settings then
          effects g' = effects g ++ spoken ∧
          illustrationUrl g' = Some (src (illustration q)) ∧
          isGenerating g' = isGenerating g ∧ inflight g' = inflight g
        else if isMounted g then
          if clientThrows then
            effects g' = (effects g ++ spoken) ++ [ConsoleError] ∧
            illustrationUrl g' = Some (src (illustration q)) ∧
            isGenerating g' = false ∧ inflight g' = inflight g
          else
            effects g' = (effects g ++ spoken) ++ [GenerateContent q] ∧
            illustrationUrl g' = None ∧ isGenerating g' = true ∧
            inflight g' = inflight g ++ [q]
        else
          effects g' = effects g ++ spoken ∧
          illustrationUrl g' = illustrationUrl g ∧
          isGenerating g' = isGenerating g ∧ inflight g' = inflight g
  end.
Proof.
  unfold questionEffect, generateIllustration, speak.
  destruct g as [p i s d f sh u ge r m ts n inf eff]. simpl.
  destruct (currentQuestion questions _) as [q|]; [|done].
  split; [by repeat case_match|].
  destruct (isTtsEnabled settings) eqn:Htts; simpl.
  - destruct (String.eqb_spec (prompt q) "") as [He|Hne]; simpl.
    + exists []. split; [by left|].
      rewrite app_nil_r. by repeat case_match.
    + exists [Speak (prompt q)]. split; [by right|]. by repeat case_match.
  - exists []. split; [by left|]. rewrite app_nil_r. by repeat case_match.
Qed.

(** The three ways a render can follow the handlers of an event. *)
Lemma commit_cases before after :
  let g := commit questions settings clientThrows before after in
  (page after = GamePlay ∧ currentIndex after = currentIndex before ∧ g = after) ∨
  (page after = GamePlay ∧ currentIndex after ≠ currentIndex before ∧
   g = questionEffect questions settings clientThrows after) ∨
  (page after ≠ GamePlay ∧ g = setIsMounted false after).
Proof.
  unfold commit. destruct (page after) eqn:Hp; try (by right; right).
  destruct (Nat.eqb_spec (currentIndex after) (currentIndex before)); eauto.
Qed.
Lemma alerts_app l1 l2 : alerts (l1 ++ l2) = alerts l1 ++ alerts l2.
Proof. apply omap_app. Qed.

Lemma requests_app l1 l2 : requests (l1 ++ l2) = requests l1 ++ requests l2.
Proof. apply omap_app. Qed.

Lemma settled_subseteq q l : settled q l ⊆ l.
Proof.
  induction l as [|x l IH]; simpl; [done|].
  case_decide.
  - intros y Hy. by right.
  - intros y [->|Hy]%elem_of_cons; [left|right; by apply IH].
Qed.

Lemma hintTimeout_fields h g :
  let g' := hintTimeout h g in
  page g' = page g ∧ currentIndex g' = currentIndex g ∧ score g' = score g ∧
  isMounted g' = isMounted g ∧ isGenerating g' = isGenerating g ∧
  inflight g' = inflight g ∧ effects g' = effects g ∧
  illustrationUrl g' = illustrationUrl g ∧ feedback g' = feedback g ∧
  isDragOver g' = isDragOver g.
Proof.
  unfold hintTimeout. destruct g as [p i s d f sh u ge r m ts n inf eff]. simpl.
  by destruct m.
Qed.

(** A settled request touches the picture, the flag and the console. *)
Lemma settle_fields q r g :
  let g' := generateIllustration_settle q r g in
  page g' = page g ∧ currentIndex g' = currentIndex g ∧ score g' = score g ∧
  isMounted g' = isMounted g ∧ inflight g' = inflight g ∧
  feedback g' = feedback g ∧ showHint g' = showHint g ∧
  isDragOver g' = isDragOver g ∧ timers g' = timers g ∧
  (effects g' = effects g ∨ effects g' = effects g ++ [ConsoleError]) ∧
  (isMounted g = true → isGenerating g' = false) ∧
  (isMounted g = false →
   isGenerating g' = isGenerating g ∧ illustrationUrl g' = illustrationUrl g).
Proof.
  unfold generateIllustration_settle.
  destruct g as [p i s d f sh u ge rf m ts n inf eff]. simpl.
  destruct r, m; simpl; split_and!; try done; eauto.
Qed.
(** What [handleDrop] adds to the effects is allowed, and is neither an
    alert nor a request. *)
Lemma handleDrop_quiet v g g1 :
  handleDrop questions canVibrate v g = Some g1 →
  ∃ extra, effects g1 = effects g ++ extra ∧
    Forall (allowed questions settings canVibrate) extra ∧
    alerts extra = [] ∧ requests extra = [] ∧
    isGenerating g1 = isGenerating g ∧ inflight g1 = inflight g.
Proof.
  intros Hd.
  destruct (handleDrop_effects v g g1 Hd) as ([He|(Hv & [He|He])] & Hg & Hi & _).
  - exists []. rewrite app_nil_r. by split_and!.
  - eexists. split; [exact He|]. split_and!; try done.
    constructor; [|done]. split; [done|by left].
  - eexists. split; [exact He|]. split_and!; try done.
    constructor; [|done]. split; [done|by right].
Qed.

Lemma step_sound g ev g' :
  sound questions settings canVibrate clientThrows g →
  step questions settings canVibrate clientThrows g ev = Some g' →
  sound questions settings canVibrate clientThrows g'.
Proof.
  intros (HM & HB & (HA1 & HA2) & HS & (HE & HI) & HR) Hstep.
  destruct (step_inv g ev g' Hstep)
    as [->|[(h & -> & _ & ->)|[(q & r & -> & Hq & ->)|(Hm & q & Hq & Hcase)]]].
  - by unfold sound.
  - destruct (hintTimeout_fields h g) as (Hp & Hi & Hs & Hm & Hg & Hinf & Heff & _).
    unfold sound. rewrite Hp, Hi, Hs, Hm, Hg, Hinf, Heff. done.
  - pose proof (settle_fields q r (setInflight (settled q (inflight g)) g))
      as (Hp & Hi & Hs & Hm & Hinf & _ & _ & _ & _ & Heff & Hg1 & Hg2).
    simpl in *. unfold sound. rewrite Hp, Hi, Hs, Hm, Hinf.
    assert (Hrm : reduceMotion settings = false).
    { rewrite Forall_forall in HI. by apply (HI q). }
    assert (Ha : alerts (effects (generateIllustration_settle q r
                  (setInflight (settled q (inflight g)) g))) = alerts (effects g)).
    { destruct Heff as [->| ->]; [done|]. rewrite alerts_app. simpl.
      by rewrite app_nil_r. }
    assert (Hr : requests (effects (generateIllustration_settle q r
                  (setInflight (settled q (inflight g)) g))) = requests (effects g)).
    { destruct Heff as [->| ->]; [done|]. rewrite requests_app. simpl.
      by rewrite app_nil_r. }
    rewrite Ha, Hr. split_and!; try done.
    + intros Hmt Hgen. rewrite (Hg1 Hmt) in Hgen. done.
    + destruct Heff as [->| ->]; [done|]. apply Forall_app. split; [done|].
      by constructor.
    + eapply Forall_forall. intros x Hx. rewrite Forall_forall in HI.
      apply HI. by eapply settled_subseteq.
  - assert (Hp : page g = GamePlay) by (by apply HM).
    assert (Hlt : currentIndex g < length questions) by (by eapply lookup_lt_Some).
    destruct Hcase as [(b & ->)|[(v & g1 & g2 & -> & H1 & H2 & ->)
                               |[(-> & _ & ->)|(-> & ->)]]].
    + by unfold sound.
    + destruct (handleDrop_score v g g1 H1) as (_ & Hi1 & Hp1 & Hm1).
      destruct (handleDrop_score v g1 g2 H2) as (_ & Hi2 & Hp2 & Hm2).
      destruct (handleDrop_quiet v g g1 H1) as (x1 & He1 & Hx1 & Ha1 & Hr1 & Hg1 & Hf1).
      destruct (handleDrop_quiet v g1 g2 H2) as (x2 & He2 & Hx2 & Ha2 & Hr2 & Hg2 & Hf2).
      destruct (commit_cases g g2) as [(_ & _ & ->)|[(_ & Hne & _)|(Hne & _)]];
        [|congruence|congruence].
      unfold sound.
      rewrite He2, He1, !alerts_app, !requests_app, Ha1, Ha2, Hr1, Hr2, !app_nil_r.
      rewrite Hm2, Hm1, Hp2, Hp1, Hi2, Hi1, Hg2, Hg1, Hf2, Hf1.
      split_and!; try done.
      * left. by apply HA1.
      * by rewrite !Forall_app.
    + pose proof (handleCloseFeedback_cases g) as Hc. simpl in Hc.
      set (a := handleCloseFeedback questions g) in *.
      destruct Hc as ((Hs & Hma & Hg & Hinf & _ & _) & Hc).
      destruct Hc as [(Hi & Hpa & He & _)|[(Hi & Hpa & He & _ & Hnext)
                                           |(Hi & Hpa & He & _ & Hlast)]].
      * destruct (commit_cases g a) as [(_ & _ & ->)|[(_ & Hne & _)|(Hne & _)]];
          [|congruence|congruence].
        unfold sound. rewrite Hs, Hma, Hg, Hinf, Hi, Hpa, He. done.
      * destruct (commit_cases g a) as [(_ & Heq & _)|[(_ & _ & ->)|(Hne & _)]];
          [lia| |congruence].
        pose proof (questionEffect_cases a) as ((Hp' & Hi' & Hs' & Hm') & Hqe).
        destruct (lookup_lt_is_Some_2 questions (S (currentIndex g)) Hnext)
          as [q' Hq'].
        unfold currentQuestion in Hqe. rewrite Hi, Hq' in Hqe.
        destruct Hqe as (spoken & Hspoken & Hqe).
        assert (Hsp : Forall (allowed questions settings canVibrate) spoken ∧
                      alerts spoken = [] ∧ requests spoken = []).
        { destruct Hspoken as [->|(-> & ? & ?)]; [done|].
          split_and!; try done. by repeat constructor. }
        destruct Hsp as (Hsp1 & Hsp2 & Hsp3).
        assert (Hq'in : q' ∈ questions) by (by eapply list_elem_of_lookup_2).
        unfold sound. rewrite Hp', Hi', Hs', Hm', Hma, Hpa, Hi.
        destruct (reduceMotion settings) eqn:Hrm; simpl in HR |- *.
        -- destruct Hqe as (He' & _ & Hg' & Hinf').
           rewrite He', Hg', Hinf', Hg, Hinf, He, alerts_app, requests_app,
             Hsp2, Hsp3, !app_nil_r.
           split_and!; try done;
             [by left | left; by apply HA1 | by apply Forall_app].
        -- rewrite Hma, Hm in Hqe. destruct clientThrows eqn:Hct.
           ++ destruct Hqe as (He' & _ & Hg' & Hinf').
              rewrite He', Hg', Hinf', Hinf, He, !alerts_app, !requests_app,
                Hsp2, Hsp3, HR, ?app_nil_r. simpl. rewrite ?app_nil_r.
              split_and!; try done.
              ** by left.
              ** left; by apply HA1.
              ** rewrite !Forall_app. split_and!; try done.
                 by repeat constructor.
           ++ destruct Hqe as (He' & _ & Hg' & Hinf').
              rewrite He', Hg', Hinf', Hinf, He, !alerts_app, !requests_app,
                Hsp2, Hsp3, HR, ?app_nil_r. simpl. rewrite ?app_nil_r.
              split_and!; try done.
              ** by left.
              ** left; by apply HA1.
              ** intros _ _. by destruct (inflight g).
              ** rewrite !Forall_app. split_and!; try done.
                 by repeat constructor.
              ** apply Forall_app. split; [done|]. by repeat constructor.
              ** by rewrite (take_S_r _ _ _ Hq').
      * destruct (commit_cases g a) as [(Heq & _)|[(Heq & _)|(_ & ->)]];
          [congruence|congruence|].
        unfold sound. simpl.
        rewrite Hs, Hg, Hinf, Hi, Hpa, He, alerts_app, requests_app, app_nil_r.
        simpl. rewrite (HA1 Hm). simpl.
        split_and!; try done.
        -- right. split; [done|]. lia.
        -- apply Forall_app. split; [done|]. by repeat constructor.
    + destruct (commit_cases g (navigateHome g)) as [(Heq & _)|[(Heq & _)|(_ & ->)]];
        [done|done|].
      unfold sound. simpl. by split_and!.
Qed.

Lemma mount_sound :
  sound questions settings canVibrate clientThrows
    (mount questions settings clientThrows).
Proof.
  unfold mount.
  pose proof (questionEffect_cases (setIsMounted true initial))
    as ((Hp & Hi & Hs & Hm) & Hqe).
  unfold currentQuestion in Hqe. simpl in *.
  destruct (questions !! 0) as [q|] eqn:Hq.
  - destruct Hqe as (spoken & Hspoken & Hqe).
    assert (Hsp : Forall (allowed questions settings canVibrate) spoken ∧
                  alerts spoken = [] ∧ requests spoken = []).
    { destruct Hspoken as [->|(-> & ? & ?)]; [done|].
      split_and!; try done. by repeat constructor. }
    destruct Hsp as (Hsp1 & Hsp2 & Hsp3).
    assert (Hin : q ∈ questions) by (by eapply list_elem_of_lookup_2).
    assert (Hlt : 0 < length questions) by (by eapply lookup_lt_Some).
    unfold sound. rewrite Hp, Hi, Hs, Hm.
    destruct (reduceMotion settings) eqn:Hrm.
    + destruct Hqe as (He & _ & Hg & Hinf).
      rewrite He, Hg, Hinf, Hsp2, Hsp3. simpl. split_and!; try done; by left.
    + destruct clientThrows eqn:Hct.
      * destruct Hqe as (He & _ & Hg & Hinf).
        rewrite He, Hg, Hinf, !alerts_app, !requests_app, Hsp2, Hsp3. simpl.
        split_and!; try done; try (by left).
        apply Forall_app. split; [done|]. by repeat constructor.
      * destruct Hqe as (He & _ & Hg & Hinf).
        rewrite He, Hg, Hinf, !alerts_app, !requests_app, Hsp2, Hsp3. simpl.
        split_and!; try done; try (by left).
        -- apply Forall_app. split; [done|]. by repeat constructor.
        -- by repeat constructor.
        -- destruct questions; simplify_eq/=. by rewrite take_0.
  - rewrite Hqe. unfold sound. simpl. split_and!; try done.
    + right. split; [|done]. by destruct questions.
    + by left.
    + destruct questions; [|done].
      by destruct (reduceMotion settings), clientThrows.
Qed.

Lemma run_sound evs g :
  sound questions settings canVibrate clientThrows g →
  ∃ g', run questions settings canVibrate clientThrows g evs = Some g' ∧
        sound questions settings canVibrate clientThrows g'.
Proof.
  revert g. induction evs as [|ev evs IH]; intros g Hs; simpl; [by eexists|].
  destruct (step_total questions settings canVibrate clientThrows g ev) as [g1 Hstep].
  rewrite Hstep. simpl. apply IH. by eapply step_sound.
Qed.

Lemma run_monotone evs g :
  ∃ g', run questions settings canVibrate clientThrows g evs = Some g' ∧
        score g ≤ score g' ∧ currentIndex g ≤ currentIndex g'.
Proof.
  revert g. induction evs as [|ev evs IH]; intros g; simpl; [by eexists|].
  destruct (step_total questions settings canVibrate clientThrows g ev) as [g1 Hstep].
  rewrite Hstep. simpl.
  destruct (step_monotone g ev g1 Hstep) as [? ?].
  destruct (IH g1) as (g' & -> & ? & ?). eexists. split; [done|]. lia.
Qed.

(** Once the component is gone, an event can change the timers, the
    awaited requests and the console, and nothing else. *)
Lemma step_unmounted g ev g' :
  isMounted g = false →
  step questions settings canVibrate clientThrows g ev = Some g' →
  isMounted g' = false ∧ page g' = page g ∧ currentIndex g' = currentIndex g ∧
  score g' = score g ∧ feedback g' = feedback g ∧ showHint g' = showHint g ∧
  isDragOver g' = isDragOver g ∧ illustrationUrl g' = illustrationUrl g ∧
  isGenerating g' = isGenerating g ∧ alerts (effects g') = alerts (effects g) ∧
  requests (effects g') = requests (effects g).
Proof.
  intros Hm Hstep.
  destruct (step_inv g ev g' Hstep)
    as [->|[(h & -> & _ & ->)|[(q & r & -> & Hq & ->)|(Hm' & _)]]].
  - done.
  - unfold hintTimeout. simpl. by rewrite Hm.
  - pose proof (settle_fields q r (setInflight (settled q (inflight g)) g))
      as (Hp & Hi & Hs & Hm1 & _ & Hf & Hsh & Hd & _ & Heff & _ & Hg2).
    simpl in *. destruct (Hg2 Hm) as [Hg Hu].
    rewrite Hp, Hi, Hs, Hm1, Hf, Hsh, Hd, Hg, Hu.
    split_and!; try done;
      destruct Heff as [->| ->]; try done;
      rewrite ?alerts_app, ?requests_app; simpl; by rewrite app_nil_r.
  - congruence.
Qed.

Lemma run_unmounted evs g :
  isMounted g = false →
  ∃ g', run questions settings canVibrate clientThrows g evs = Some g' ∧
    isMounted g' = false ∧ page g' = page g ∧ currentIndex g' = currentIndex g ∧
    score g' = score g ∧ feedback g' = feedback g ∧ showHint g' = showHint g ∧
    isDragOver g' = isDragOver g ∧ illustrationUrl g' = illustrationUrl g ∧
    isGenerating g' = isGenerating g ∧ alerts (effects g') = alerts (effects g) ∧
    requests (effects g') = requests (effects g).
Proof.
  revert g. induction evs as [|ev evs IH]; intros g Hm; simpl.
  { eexists. by split_and!. }
  destruct (step_total questions settings canVibrate clientThrows g ev) as [g1 Hstep].
  rewrite Hstep. simpl.
  destruct (step_unmounted g ev g1 Hm Hstep)
    as (Hm1 & ? & ? & ? & ? & ? & ? & ? & ? & ? & ?).
  destruct (IH g1 Hm1) as (g' & -> & ? & ? & ? & ? & ? & ? & ? & ? & ? & ? & ?).
  eexists. split; [done|]. split_and!; congruence.
Qed.
End SessionFacts.

(** X10: in a session with at least one question the index never leaves
    the list, whatever the events: there is always a current question, the
    placeholder is never shown, and the component is mounted exactly while
    the page is the game page. *)
Theorem session_index_in_bounds
    (questions : list Question) (settings : Settings)
    (canVibrate clientThrows : bool)
    (evs : list Event) :
  questions ≠ [] →
  ∃ g, play questions settings canVibrate clientThrows evs = Some g ∧
       currentIndex g < length questions ∧
       is_Some (currentQuestion questions g) ∧
       render questions g ≠ Loading ∧
       (isMounted g = true ↔ page g = GamePlay).
Proof.
  intros Hne.
  destruct (run_sound questions settings canVibrate clientThrows evs _
              (mount_sound questions settings canVibrate clientThrows))
    as (g & Hrun & HM & HB & _).
  exists g. split; [exact Hrun|].
  assert (Hlt : currentIndex g < length questions) by (by destruct HB as [?|[? _]]).
  destruct (lookup_lt_is_Some_2 questions _ Hlt) as [q Hq].
  split; [exact Hlt|]. split; [by exists q|]. split; [|exact HM].
  unfold render, currentQuestion. by rewrite Hq.
Qed.

Lemma session_index_in_bounds_witness :
  [q_pet; q_sum] ≠ [] ∧
  ∃ g, play [q_pet; q_sum] defaults true false
         [Drop "cat"; ClickClose; Drop "4"; TimerFires 7; DragEnter] = Some g ∧
       currentIndex g < 2.
Proof.
  split; [discriminate|].
  destruct (session_index_in_bounds [q_pet; q_sum] defaults true false
              [Drop "cat"; ClickClose; Drop "4"; TimerFires 7; DragEnter]
              ltac:(discriminate)) as (g & Hg & Hlt & _).
  exists g. split; [exact Hg|exact Hlt].
Defined.

(** X11: a session alerts at most once, and only when the feedback of the
    last question is closed: the alert shows the score plus one and the
    number of questions, and the game page has been left. *)
Theorem session_alerts_at_most_once
    (questions : list Question) (settings : Settings)
    (canVibrate clientThrows : bool)
    (evs : list Event) :
  ∃ g, play questions settings canVibrate clientThrows evs = Some g ∧
       (alerts (effects g) = [] ∨
        alerts (effects g) = [(score g + 1, length questions)] ∧
        S (currentIndex g) = length questions ∧
        isMounted g = false ∧ page g ≠ GamePlay).
Proof.
  destruct (run_sound questions settings canVibrate clientThrows evs _
              (mount_sound questions settings canVibrate clientThrows))
    as (g & Hrun & HM & _ & (HA1 & HA2) & _).
  exists g. split; [exact Hrun|].
  destruct HA2 as [Ha|[Ha Hlast]]; [by left|right].
  assert (Hm : isMounted g = false).
  { destruct (isMounted g) eqn:Hm; [|done]. rewrite HA1 in Ha; done. }
  split_and!; try done. intros Hp. apply HM in Hp. congruence.
Qed.

(** X12: while the component is mounted and the generating flag is set, an
    illustration request is awaited: the spinner cannot outlive the
    requests. *)
Theorem session_spinner_awaits_a_request
    (questions : list Question) (settings : Settings)
    (canVibrate clientThrows : bool)
    (evs : list Event) :
  ∃ g, play questions settings canVibrate clientThrows evs = Some g ∧
       (isMounted g = true → isGenerating g = true → inflight g ≠ []) ∧
       Forall (λ q, reduceMotion settings = false ∧ q ∈ questions) (inflight g).
Proof.
  destruct (run_sound questions settings canVibrate clientThrows evs _
              (mount_sound questions settings canVibrate clientThrows))
    as (g & Hrun & _ & _ & _ & HS & (_ & HI) & _).
  by exists g.
Qed.

(** X13: a session only does what the settings and the browser allow: it
    speaks only with text-to-speech enabled and a non-empty text, vibrates
    only where the browser can, with one of the two patterns, requests
    illustrations (and logs their failures) only without reduced motion and
    for questions of the list, and alerts the length of the list as total. *)
Theorem session_effects_are_allowed
    (questions : list Question) (settings : Settings)
    (canVibrate clientThrows : bool)
    (evs : list Event) :
  ∃ g, play questions settings canVibrate clientThrows evs = Some g ∧
       Forall (allowed questions settings canVibrate) (effects g).
Proof.
  destruct (run_sound questions settings canVibrate clientThrows evs _
              (mount_sound questions settings canVibrate clientThrows))
    as (g & Hrun & _ & _ & _ & _ & (HE & _) & _).
  by exists g.
Qed.

(** X14: a session that asks for illustrations, that is without reduced
    motion and with a client that can be made, has sent exactly one request
    for each question shown so far, in the order of the list; with reduced
    motion, or with a client whose construction throws, it has sent none. *)
Theorem session_one_request_per_question
    (questions : list Question) (settings : Settings)
    (canVibrate clientThrows : bool)
    (evs : list Event) :
  ∃ g, play questions settings canVibrate clientThrows evs = Some g ∧
       requests (effects g)
       = (if reduceMotion settings || clientThrows then []
          else take (S (currentIndex g)) questions).
Proof.
  destruct (run_sound questions settings canVibrate clientThrows evs _
              (mount_sound questions settings canVibrate clientThrows))
    as (g & Hrun & _ & _ & _ & _ & _ & HR).
  by exists g.
Qed.

(** X15: from any state, no sequence of events lowers the score or goes
    back to an earlier question. *)
Theorem run_never_goes_back
    (questions : list Question) (settings : Settings)
    (canVibrate clientThrows : bool)
    (g : Game) (evs : list Event) :
  ∃ g', run questions settings canVibrate clientThrows g evs = Some g' ∧
        score g ≤ score g' ∧ currentIndex g ≤ currentIndex g'.
Proof. apply run_monotone. Qed.

(** X16: once the component is unmounted, no event changes its page,
    question, score, feedback, hint, drag-over flag, picture or generating
    flag, and there is no further alert or illustration request: a timer or
    a request that comes back late is ignored. *)
Theorem unmounted_game_is_frozen
    (questions : list Question) (settings : Settings)
    (canVibrate clientThrows : bool)
    (g : Game) (evs : list Event) :
  isMounted g = false →
  ∃ g', run questions settings canVibrate clientThrows g evs = Some g' ∧
    isMounted g' = false ∧ page g' = page g ∧ currentIndex g' = currentIndex g ∧
    score g' = score g ∧ feedback g' = feedback g ∧ showHint g' = showHint g ∧
    isDragOver g' = isDragOver g ∧ illustrationUrl g' = illustrationUrl g ∧
    isGenerating g' = isGenerating g ∧ alerts (effects g') = alerts (effects g) ∧
    requests (effects g') = requests (effects g).
Proof. apply run_unmounted. Qed.

Lemma unmounted_game_is_frozen_witness :
  isMounted gone = false ∧
  ∃ g', run [q_sum] defaults true false gone [TimerFires 1; Drop "4"; ClickClose]
          = Some g' ∧ showHint g' = showHint gone ∧ score g' = score gone.
Proof.
  split; [reflexivity|].
  destruct (unmounted_game_is_frozen [q_sum] defaults true false gone
              [TimerFires 1; Drop "4"; ClickClose] eq_refl)
    as (g' & Hg' & _ & _ & _ & Hs & _ & Hh & _).
  exists g'. split; [exact Hg'|]. split; [exact Hh|exact Hs].
Defined.

(** X17: when the image of a request arrives in a mounted game, the
    generating flag is cleared and the picture becomes the data URL of the
    image, for whichever question is current then; nothing else of the game
    changes and nothing is logged. *)
Theorem illustration_success_shows_image
    (questions : list Question) (g : Game) (q : Question) (base64 : string) :
  isMounted g = true →
  let g' := generateIllustration_settle q (ImageBytes base64) g in
  isGenerating g' = false ∧
  illustrationUrl g' = Some ("data:image/png;base64," +:+ base64) ∧
  (is_Some (currentQuestion questions g) →
   displayed questions g' = Some ("data:image/png;base64," +:+ base64)) ∧
  effects g' = effects g ∧
  page g' = page g ∧ currentIndex g' = currentIndex g ∧ score g' = score g ∧
  feedback g' = feedback g ∧ showHint g' = showHint g ∧ timers g' = timers g.
Proof.
  intros Hm g'. subst g'. unfold generateIllustration_settle.
  destruct g as [p i s d f sh u ge rf m ts n inf eff]. simpl in *. subst m.
  simpl. split_and!; try done.
  intros [q' Hq']. unfold displayed, render, currentQuestion in *. simpl in *.
  by rewrite Hq'.
Qed.

Lemma illustration_success_shows_image_witness :
  isMounted generating = true ∧
  displayed [q_sum] (generateIllustration_settle q_sum (ImageBytes "iVBOR") generating)
  = Some "data:image/png;base64,iVBOR".
Proof.
  split; [reflexivity|].
  exact (proj1 (proj2 (proj2 (illustration_success_shows_image [q_sum] generating
                                q_sum "iVBOR" eq_refl))) (ex_intro _ q_sum eq_refl)).
Defined.

(** X18: without reduced motion, starting a question in a mounted game
    speaks the prompt if text-to-speech applies and then asks for an
    illustration.  When the client can be made, the picture that was there
    is dropped, the generating flag is set, so that the spinner is shown,
    and one request for that question is sent.  When making the client
    throws, nothing is sent: the failure is logged and, the flag being
    cleared again within the same effect, the static illustration of the
    question is shown and the spinner is not. *)
Theorem question_start_requests_illustration
    (questions : list Question) (settings : Settings) (clientThrows : bool)
    (g : Game) (q : Question) :
  reduceMotion settings = false → isMounted g = true →
  currentQuestion questions g = Some q →
  let g' := questionEffect questions settings clientThrows g in
  currentIndex g' = currentIndex g ∧ score g' = score g ∧ page g' = page g ∧
  if clientThrows then
    isGenerating g' = false ∧
    illustrationUrl g' = Some (src (illustration q)) ∧
    displayed questions g' = Some (src (illustration q)) ∧
    inflight g' = inflight g ∧
    requests (effects g') = requests (effects g) ∧
    (effects g' = effects g ++ [ConsoleError] ∨
     isTtsEnabled settings = true ∧
     effects g' = effects g ++ [Speak (prompt q); ConsoleError])
  else
    isGenerating g' = true ∧ illustrationUrl g' = None ∧
    displayed questions g' = None ∧
    inflight g' = inflight g ++ [q] ∧
    requests (effects g') = requests (effects g) ++ [q] ∧
    (effects g' = effects g ++ [GenerateContent q] ∨
     isTtsEnabled settings = true ∧
     effects g' = effects g ++ [Speak (prompt q); GenerateContent q]).
Proof.
  intros Hrm Hm Hq g'.
  pose proof (questionEffect_cases questions settings clientThrows g)
    as ((Hp & Hi & Hs & _) & Hqe).
  rewrite Hq, Hrm, Hm in Hqe. destruct Hqe as (spoken & Hsp & Hqe).
  fold g' in Hp, Hi, Hs, Hqe.
  split; [exact Hi|]. split; [exact Hs|]. split; [exact Hp|].
  destruct clientThrows; destruct Hqe as (He & Hu & Hg & Hinf).
  - split_and!; try done.
    + unfold displayed, render, currentQuestion in *. rewrite Hi, Hq, Hg, Hu.
      simpl. by destruct (String.eqb_spec (src (illustration q)) "") as [->|].
    + rewrite He, !requests_app. destruct Hsp as [->|(-> & _)]; simpl;
        by rewrite !app_nil_r.
    + destruct Hsp as [->|(-> & ? & _)]; [left|right].
      * by rewrite He, app_nil_r.
      * split; [done|]. by rewrite He, <- app_assoc.
  - split_and!; try done.
    + unfold displayed, render, currentQuestion in *. by rewrite Hi, Hq, Hg.
    + rewrite He, !requests_app. destruct Hsp as [->|(-> & _)]; simpl;
        by rewrite app_nil_r.
    + destruct Hsp as [->|(-> & ? & _)]; [left|right].
      * by rewrite He, app_nil_r.
      * split; [done|]. by rewrite He, <- app_assoc.
Qed.

Lemma question_start_requests_illustration_witness :
  reduceMotion defaults = false ∧ isMounted fresh = true ∧
  currentQuestion [q_pet; q_sum] fresh = Some q_pet ∧
  displayed [q_pet; q_sum] (questionEffect [q_pet; q_sum] defaults false fresh)
  = None ∧
  displayed [q_pet; q_sum] (questionEffect [q_pet; q_sum] defaults true fresh)
  = Some "pet.png".
Proof.
  pose proof (question_start_requests_illustration [q_pet; q_sum] defaults false
                fresh q_pet eq_refl eq_refl eq_refl)
    as (_ & _ & _ & _ & _ & Hd & _).
  pose proof (question_start_requests_illustration [q_pet; q_sum] defaults true
                fresh q_pet eq_refl eq_refl eq_refl)
    as (_ & _ & _ & _ & _ & Hd' & _).
  split; [reflexivity|]. split; [reflexivity|]. split; [reflexivity|].
  split; [exact Hd|exact Hd'].
Defined.

(** ** Answers *)

Section AnswerFacts.
Variable questions : list Question.
Variable settings : Settings.
Variable canVibrate : bool.
Variable clientThrows : bool.

(** A render that keeps the question adds no effect. *)
Lemma commit_same_index before after :
  currentIndex after = currentIndex before →
  effects (commit questions settings clientThrows before after) = effects after.
Proof.
  intros Hi.
  destruct (commit_cases questions settings clientThrows before after)
    as [(_ & _ & ->)|[(_ & Hne & _)|(_ & ->)]]; done.
Qed.

Lemma questionEffect_alerts g :
  alerts (effects (questionEffect questions settings clientThrows g))
  = alerts (effects g).
Proof.
  pose proof (questionEffect_cases questions settings clientThrows g)
    as (_ & Hqe).
  destruct (currentQuestion questions g) as [q|]; [|by rewrite Hqe].
  destruct Hqe as (spoken & Hsp & Hqe).
  assert (Ha : alerts spoken = []) by (by destruct Hsp as [->|(-> & _)]).
  destruct (reduceMotion settings), (isMounted g), clientThrows;
    destruct Hqe as (-> & _); rewrite !alerts_app, Ha; simpl;
    by rewrite ?app_nil_r.
Qed.

Lemma commit_alerts before after :
  alerts (effects (commit questions settings clientThrows before after))
  = alerts (effects after).
Proof.
  destruct (commit_cases questions settings clientThrows before after)
    as [(_ & _ & ->)|[(_ & _ & ->)|(_ & ->)]]; try done.
  apply questionEffect_alerts.
Qed.

(** Without the right answer the game stays where it is. *)
Lemma step_without_answer g ev g' q :
  currentQuestion questions g = Some q →
  ev ≠ Drop (correctAnswer q) →
  feedback_correct g = false →
  step questions settings canVibrate clientThrows g ev = Some g' →
  currentIndex g' = currentIndex g ∧ score g' = score g ∧
  feedback_correct g' = false ∧ alerts (effects g') = alerts (effects g).
Proof.
  intros Hq Hev Hfc Hstep.
  destruct (step_inv questions settings canVibrate clientThrows g ev g' Hstep)
    as [->|[(h & -> & _ & ->)|[(q1 & r & -> & _ & ->)|(Hm & q2 & Hq2 & Hcase)]]].
  - done.
  - destruct (hintTimeout_fields h g) as (_ & -> & -> & _ & _ & _ & -> & _ & Hf & _).
    unfold feedback_correct in *. by rewrite Hf.
  - pose proof (settle_fields q1 r (setInflight (settled q1 (inflight g)) g))
      as (_ & Hi & Hs & _ & _ & Hf & _ & _ & _ & Heff & _).
    simpl in *. rewrite Hi, Hs. unfold feedback_correct in *. rewrite Hf.
    split_and!; try done.
    destruct Heff as [->| ->]; [done|]. rewrite alerts_app. simpl.
    by rewrite app_nil_r.
  - destruct Hcase as [(b & ->)|[(v & g1 & g2 & -> & H1 & H2 & ->)
                               |[(-> & _ & ->)|(-> & ->)]]].
    + done.
    + assert (Hv : v ≠ correctAnswer q) by congruence.
      destruct (handleDrop_incorrect questions canVibrate g q v Hq Hv)
        as (g1' & H1' & Hs1 & _ & Hi1 & _). simplify_eq.
      assert (Hq1 : currentQuestion questions g1 = Some q).
      { unfold currentQuestion in *. by rewrite Hi1. }
      destruct (handleDrop_incorrect questions canVibrate g1 q v Hq1 Hv)
        as (g2' & H2' & Hs2 & Hf2 & Hi2 & _). simplify_eq.
      destruct (handleDrop_quiet questions settings canVibrate v g g1 H1)
        as (x1 & He1 & _ & Ha1 & _).
      destruct (handleDrop_quiet questions settings canVibrate v g1 g2 H2)
        as (x2 & He2 & _ & Ha2 & _).
      destruct (commit_fields questions settings clientThrows g g2) as (_ & -> & -> & Hf & _).
      rewrite commit_alerts, He2, He1, !alerts_app, Ha1, Ha2, !app_nil_r.
      unfold feedback_correct. rewrite Hf, Hf2. split_and!; try done; congruence.
    + pose proof (handleCloseFeedback_cases questions g) as Hc. simpl in Hc.
      set (a := handleCloseFeedback questions g) in *.
      destruct Hc as ((Hs & _ & _ & _ & _ & Hf) & Hc).
      destruct Hc as [(Hi & _ & He & _)|[(_ & _ & _ & Hc & _)|(_ & _ & _ & Hc & _)]];
        [|congruence|congruence].
      destruct (commit_fields questions settings clientThrows g a) as (_ & -> & -> & Hf' & _).
      rewrite commit_alerts, He. unfold feedback_correct. by rewrite Hf', Hf.
    + destruct (commit_fields questions settings clientThrows g (navigateHome g))
        as (_ & -> & -> & Hf' & _).
      rewrite commit_alerts. unfold feedback_correct in *. by rewrite Hf'.
Qed.

Lemma run_without_answer evs g q :
  currentQuestion questions g = Some q →
  Forall (λ ev, ev ≠ Drop (correctAnswer q)) evs →
  feedback_correct g = false →
  ∃ g', run questions settings canVibrate clientThrows g evs = Some g' ∧
    currentIndex g' = currentIndex g ∧ score g' = score g ∧
    alerts (effects g') = alerts (effects g).
Proof.
  revert g. induction evs as [|ev evs IH]; intros g Hq Hevs Hfc; simpl.
  { by eexists. }
  apply Forall_cons in Hevs as [Hev Hevs].
  destruct (step_total questions settings canVibrate clientThrows g ev) as [g1 Hstep].
  rewrite Hstep. simpl.
  destruct (step_without_answer g ev g1 q Hq Hev Hfc Hstep) as (Hi & Hs & Hf & Ha).
  assert (Hq1 : currentQuestion questions g1 = Some q).
  { unfold currentQuestion in *. by rewrite Hi. }
  destruct (IH g1 Hq1 Hevs Hf) as (g' & -> & ? & ? & ?).
  eexists. split; [done|]. split_and!; congruence.
Qed.
End AnswerFacts.

(** X19: as long as the right answer of the first question is not dropped,
    the session stays on the first question with score 0 and without an
    alert, whatever else is dropped, closed, or fired. *)
Theorem session_needs_the_right_answer
    (q : Question) (rest : list Question) (settings : Settings)
    (canVibrate clientThrows : bool) (evs : list Event) :
  Forall (λ ev, ev ≠ Drop (correctAnswer q)) evs →
  ∃ g, play (q :: rest) settings canVibrate clientThrows evs = Some g ∧
       currentIndex g = 0 ∧ score g = 0 ∧ alerts (effects g) = [].
Proof.
  intros Hevs. unfold play.
  pose proof (questionEffect_cases (q :: rest) settings clientThrows
                (setIsMounted true initial)) as ((_ & Hi & Hs & _) & _).
  pose proof (questionEffect_alerts (q :: rest) settings clientThrows
                (setIsMounted true initial)) as Ha.
  fold (mount (q :: rest) settings clientThrows) in Hi, Hs, Ha.
  simpl in Hi, Hs, Ha.
  destruct (run_without_answer (q :: rest) settings canVibrate clientThrows evs
              (mount (q :: rest) settings clientThrows) q)
    as (g & Hrun & Hi' & Hs' & Ha').
  - unfold currentQuestion. by rewrite Hi.
  - done.
  - unfold mount, questionEffect, generateIllustration, speak, feedback_correct.
    simpl. by repeat case_match.
  - exists g. split; [exact Hrun|]. split_and!; congruence.
Qed.

Lemma session_needs_the_right_answer_witness :
  Forall (λ ev, ev ≠ Drop (correctAnswer q_pet))
    [Drop "dog"; ClickClose; Drop "4"; TimerFires 3; ClickClose] ∧
  ∃ g, play [q_pet; q_sum] defaults true false
         [Drop "dog"; ClickClose; Drop "4"; TimerFires 3; ClickClose] = Some g ∧
       currentIndex g = 0 ∧ score g = 0.
Proof.
  assert (H : Forall (λ ev, ev ≠ Drop (correctAnswer q_pet))
                [Drop "dog"; ClickClose; Drop "4"; TimerFires 3; ClickClose])
    by (repeat constructor; discriminate).
  split; [exact H|].
  destruct (session_needs_the_right_answer q_pet [q_sum] defaults true false _ H)
    as (g & Hg & Hi & Hs & _).
  exists g. split; [exact Hg|]. split; [exact Hi|exact Hs].
Defined.

Section PerfectFacts.
Variable questions : list Question.
Variable settings : Settings.
Variable canVibrate : bool.
Variable clientThrows : bool.

Lemma step_Drop g q v :
  isMounted g = true → currentQuestion questions g = Some q →
  step questions settings canVibrate clientThrows g (Drop v)
  = commit questions settings clientThrows g <$> onDrop questions canVibrate v g.
Proof. intros Hm Hq. simpl. rewrite Hm. simpl. unfold render. by rewrite Hq. Qed.

Lemma step_ClickClose g q fb :
  isMounted g = true → currentQuestion questions g = Some q →
  feedback g = Some fb → show fb = true →
  step questions settings canVibrate clientThrows g ClickClose
  = Some (commit questions settings clientThrows g (handleCloseFeedback questions g)).
Proof.
  intros Hm Hq Hf Hs. simpl. rewrite Hm. simpl. unfold render.
  by rewrite Hq, Hf, Hs.
Qed.

(** A drop of the right answer, with everything it leaves alone. *)
Lemma onDrop_correct_full g q :
  currentQuestion questions g = Some q →
  ∃ g1, onDrop questions canVibrate (correctAnswer q) g = Some g1 ∧
    score g1 = S (S (score g)) ∧ feedback g1 = Some (mkFeedback true true) ∧
    currentIndex g1 = currentIndex g ∧ page g1 = page g ∧
    isMounted g1 = isMounted g ∧ alerts (effects g1) = alerts (effects g).
Proof.
  intros Hq. unfold onDrop.
  destruct (handleDrop_correct questions canVibrate g q Hq)
    as (g1 & H1 & Hs1 & _ & Hi1 & _).
  assert (Hq1 : currentQuestion questions g1 = Some q).
  { unfold currentQuestion in *. by rewrite Hi1. }
  destruct (handleDrop_correct questions canVibrate g1 q Hq1)
    as (g2 & H2 & Hs2 & Hf2 & Hi2 & _).
  destruct (handleDrop_score questions canVibrate _ g g1 H1) as (_ & _ & Hp1 & Hm1).
  destruct (handleDrop_score questions canVibrate _ g1 g2 H2) as (_ & _ & Hp2 & Hm2).
  destruct (handleDrop_quiet questions settings canVibrate _ g g1 H1)
    as (x1 & He1 & _ & Ha1 & _).
  destruct (handleDrop_quiet questions settings canVibrate _ g1 g2 H2)
    as (x2 & He2 & _ & Ha2 & _).
  rewrite H1. simpl. rewrite H2. exists g2. split; [done|].
  split_and!; try congruence.
  by rewrite He2, He1, !alerts_app, Ha1, Ha2, !app_nil_r.
Qed.

Lemma run_perfect rest : ∀ seen g,
  questions = seen ++ rest → rest ≠ [] →
  isMounted g = true → page g = GamePlay → currentIndex g = length seen →
  ∃ g', run questions settings canVibrate clientThrows g (perfect rest) = Some g' ∧
    page g' = Home ∧ isMounted g' = false ∧
    score g' = score g + 2 * length rest ∧
    S (currentIndex g') = length questions ∧
    alerts (effects g')
    = alerts (effects g) ++ [(score g + 2 * length rest + 1, length questions)].
Proof.
  induction rest as [|q rest IH]; intros seen g Hqs Hne Hm Hp Hi; [done|].
  assert (Hq : currentQuestion questions g = Some q).
  { unfold currentQuestion. rewrite Hi, Hqs. by rewrite list_lookup_middle. }
  assert (Hlen : length questions = length seen + S (length rest)).
  { rewrite Hqs, length_app. done. }
  destruct (onDrop_correct_full g q Hq) as (g1 & Hd & Hs1 & Hf1 & Hi1 & Hp1 & Hm1 & Ha1).
  change (perfect (q :: rest))
    with (Drop (correctAnswer q) :: ClickClose :: perfect rest).
  cbn [run]. rewrite (step_Drop g q _ Hm Hq), Hd. cbn [fmap option_fmap option_map mbind option_bind].
  assert (Hc1 : commit questions settings clientThrows g g1 = g1).
  { destruct (commit_cases questions settings clientThrows g g1)
      as [(_ & _ & ->)|[(_ & Hx & _)|(Hx & _)]]; [done|congruence|congruence]. }
  rewrite Hc1.
  assert (Hq1 : currentQuestion questions g1 = Some q).
  { unfold currentQuestion in *. by rewrite Hi1. }
  rewrite (step_ClickClose g1 q _ (eq_trans Hm1 Hm) Hq1 Hf1 eq_refl).
  cbn [mbind option_bind].
  pose proof (handleCloseFeedback_cases questions g1) as Hc. simpl in Hc.
  set (a := handleCloseFeedback questions g1) in *.
  assert (Hfc : feedback_correct g1 = true).
  { unfold feedback_correct. by rewrite Hf1. }
  destruct Hc as ((Hsa & Hma & _) & Hc).
  destruct rest as [|q' rest'].
  - destruct Hc as [(_ & _ & _ & Hx)|[(_ & _ & _ & _ & Hx)|(Hia & Hpa & Hea & _)]];
      [congruence|simpl in Hlen; lia|].
    destruct (commit_cases questions settings clientThrows g1 a)
      as [(Hx & _)|[(Hx & _)|(_ & ->)]]; [congruence|congruence|].
    simpl. eexists. split; [done|]. simpl.
    rewrite Hpa, Hsa, Hia, Hea, alerts_app, Hs1, Hi1, Hi, Ha1, Hlen. simpl.
    split_and!; try done; try lia.
    do 3 f_equal. lia.
  - destruct Hc as [(_ & _ & _ & Hx)|[(Hia & Hpa & Hea & _)|(_ & _ & _ & _ & Hx)]];
      [congruence| |simpl in Hlen; lia].
    destruct (commit_cases questions settings clientThrows g1 a)
      as [(_ & Hx & _)|[(_ & _ & ->)|(Hx & _)]]; [lia| |congruence].
    pose proof (questionEffect_cases questions settings clientThrows a) as ((Hp' & Hi' & Hs' & Hm') & _).
    pose proof (questionEffect_alerts questions settings clientThrows a) as Ha'.
    set (g2 := questionEffect questions settings clientThrows a) in *.
    destruct (IH (seen ++ [q]) g2) as (g' & Hrun & Hpg & Hmg & Hsg & Hig & Hag).
    + by rewrite <- app_assoc.
    + done.
    + congruence.
    + congruence.
    + rewrite length_app. simpl. lia.
    + exists g'. split; [exact Hrun|].
      rewrite Hag, Ha', Hea, Ha1, Hsg, Hs', Hsa, Hs1. simpl.
      split_and!; try done; try lia.
      do 3 f_equal. lia.
Qed.
End PerfectFacts.

(** X20: a player who drops the right answer on every question, closing
    the feedback each time, ends the session: the game page is left and the
    component unmounted on the last question, the score is twice the number
    of questions, as each drop counts twice, and the only alert shows that
    score plus one. *)
Theorem perfect_session_ends
    (questions : list Question) (settings : Settings)
    (canVibrate clientThrows : bool) :
  questions ≠ [] →
  ∃ g, play questions settings canVibrate clientThrows (perfect questions) = Some g ∧
       page g = Home ∧ isMounted g = false ∧
       S (currentIndex g) = length questions ∧
       score g = 2 * length questions ∧
       alerts (effects g) = [(2 * length questions + 1, length questions)].
Proof.
  intros Hne. unfold play.
  pose proof (questionEffect_cases questions settings clientThrows (setIsMounted true initial))
    as ((Hp & Hi & Hs & Hm) & _).
  pose proof (questionEffect_alerts questions settings clientThrows (setIsMounted true initial))
    as Ha.
  fold (mount questions settings clientThrows) in Hp, Hi, Hs, Hm, Ha. simpl in Hp, Hi, Hs, Hm, Ha.
  destruct (run_perfect questions settings canVibrate clientThrows questions [] 
              (mount questions settings clientThrows) eq_refl Hne Hm Hp Hi)
    as (g & Hrun & Hpg & Hmg & Hsg & Hig & Hag).
  exists g. split; [exact Hrun|].
  rewrite Hag, Ha, Hsg, Hs. by split_and!.
Qed.

Lemma perfect_session_ends_witness :
  [q_pet; q_sum] ≠ [] ∧
  ∃ g, play [q_pet; q_sum] defaults true false (perfect [q_pet; q_sum]) = Some g ∧
       page g = Home ∧ score g = 4.
Proof.
  split; [discriminate|].
  destruct (perfect_session_ends [q_pet; q_sum] defaults true false ltac:(discriminate))
    as (g & Hg & Hp & _ & _ & Hs & _).
  exists g. split; [exact Hg|]. split; [exact Hp|exact Hs].
Defined.

(** ** Every order can come out of the shuffle *)

Lemma floor_mul_exact (j i : nat) :
  j ≤ i → floor_mul (mkDraw j (i - j)) (i + 1) = j.
Proof.
  intros Hj. unfold floor_mul. simpl.
  replace (j + (i - j) + 1) with (i + 1) by lia.
  apply Nat.div_mul. lia.
Qed.

Section ShuffleOnto.
Context {T : Type}.
Implicit Types a p s : list T.

Lemma swap_app_l p s i j :
  i < length p → j < length p → swap (p ++ s) i j = swap p i j ++ s.
Proof.
  intros Hi Hj. unfold swap.
  rewrite !lookup_app_l by done.
  destruct (p !! j) as [x|]; [|done]. destruct (p !! i) as [y|]; [|done].
  rewrite insert_app_l by done.
  rewrite insert_app_l by (by rewrite length_insert). done.
Qed.

(** The loop at index [i] leaves the positions above [i] alone. *)
Lemma shuffle_loop_app random k i p s :
  i < length p →
  shuffle_loop random k i (p ++ s) = shuffle_loop random k i p ++ s.
Proof.
  revert k p. induction i as [|i IH]; intros k p Hi; simpl; [done|].
  match goal with |- context [floor_mul ?r ?n] =>
    pose proof (floor_mul_lt r n) end.
  rewrite swap_app_l by lia.
  apply IH. rewrite length_swap. lia.
Qed.

(** The loop from call [k] on reads the draws from [k] on only. *)
Lemma shuffle_loop_ext r1 r2 k i a :
  (∀ m, k ≤ m → r1 m = r2 m) →
  shuffle_loop r1 k i a = shuffle_loop r2 k i a.
Proof.
  revert k a. induction i as [|i IH]; intros k a Hr; simpl; [done|].
  rewrite (Hr k) by lia. apply IH. intros m Hm. apply Hr. lia.
Qed.

(** Swapping the last position with the position of [y] puts [y] last. *)
Lemma swap_last a i j y :
  length a = S i → a !! j = Some y →
  ∃ p, swap a i j = p ++ [y] ∧ length p = i.
Proof.
  intros Hlen Hy.
  assert (Hj : j < length a) by (by eapply lookup_lt_Some).
  destruct (lookup_lt_is_Some_2 a i) as [x Hx]; [lia|].
  exists (take i (swap a i j)). split.
  - rewrite <- (take_drop i (swap a i j)) at 1. f_equal.
    assert (Hl : swap a i j !! i = Some y).
    { unfold swap. rewrite Hy, Hx.
      rewrite (lookup_two_writes a i j y x i Hy Hx). unfold transpose.
      repeat case_decide; subst; congruence. }
    rewrite (drop_S _ _ _ Hl). rewrite drop_ge; [done|].
    rewrite length_swap. lia.
  - rewrite length_take, length_swap. lia.
Qed.

Lemma shuffle_loop_onto i : ∀ k a l,
  length a = S i → l ≡ₚ a → ∃ random, shuffle_loop random k i a = l.
Proof.
  induction i as [|i IH]; intros k a l Hlen Hperm.
  - exists (λ _, mkDraw 0 0). simpl.
    destruct a as [|x [|? ?]]; simplify_eq/=.
    by apply Permutation_singleton_r in Hperm.
  - destruct l as [|y l0 _] using rev_ind.
    { apply Permutation_length in Hperm. simpl in Hperm. lia. }
    assert (Hy : y ∈ a).
    { rewrite <- Hperm. apply elem_of_app. right. by left. }
    apply list_elem_of_lookup in Hy as [j Hj].
    assert (Hjle : j ≤ S i).
    { apply lookup_lt_Some in Hj. lia. }
    destruct (swap_last a (S i) j y Hlen Hj) as (p & Hswap & Hp).
    assert (Hpl : l0 ≡ₚ p).
    { apply (inj (.++ [y])). rewrite Hperm, <- Hswap.
      symmetry. apply swap_Permutation. }
    destruct (IH (S k) p l0 Hp Hpl) as [random0 Hr0].
    exists (λ m, if decide (m = k) then mkDraw j (S i - j) else random0 m).
    simpl. rewrite decide_True by done.
    assert (Hfm : floor_mul (mkDraw j (S i - j)) (S (i + 1)) = j)
      by exact (floor_mul_exact j (S i) Hjle).
    rewrite Hfm, Hswap.
    rewrite (shuffle_loop_ext _ random0).
    + rewrite shuffle_loop_app by lia. by rewrite Hr0.
    + intros m Hm. rewrite decide_False by lia. done.
Qed.
End ShuffleOnto.

(** X21: every arrangement of the input can come out of [shuffleArray]:
    for each permutation of the array there are values of [Math.random]
    with which the shuffle returns it. *)
Theorem shuffleArray_onto {T : Type} (array arrangement : list T) :
  arrangement ≡ₚ array →
  ∃ random, shuffleArray random array = arrangement.
Proof.
  intros Hperm. unfold shuffleArray.
  destruct array as [|x array].
  - apply Permutation_nil_r in Hperm as ->. by exists (λ _, mkDraw 0 0).
  - simpl. rewrite Nat.sub_0_r. by apply shuffle_loop_onto.
Qed.

Lemma shuffleArray_onto_witness :
  [q_sum; q_pet] ≡ₚ [q_pet; q_sum] ∧
  ∃ random, shuffleArray random [q_pet; q_sum] = [q_sum; q_pet].
Proof.
  assert (H : [q_sum; q_pet] ≡ₚ [q_pet; q_sum]) by apply Permutation_swap.
  split; [exact H|].
  exact (shuffleArray_onto [q_pet; q_sum] [q_sum; q_pet] H).
Defined.

(** X22: what a session puts on the screen: the placeholder only when the
    list has no question; otherwise the star row gets the score and the
    number of questions, and the progress bar a position between 1 and the
    number of questions, so that its width is defined and at most 100%. *)
Theorem session_progress_within_bar
    (questions : list Question) (settings : Settings)
    (canVibrate clientThrows : bool)
    (evs : list Event) :
  ∃ g, play questions settings canVibrate clientThrows evs = Some g ∧
       match render questions g with
       | Loading => questions = []
       | Playing stars total progress _ _ _ _ _ _ _ =>
           stars = score g ∧ total = length questions ∧
           1 ≤ progress ≤ total
       end.
Proof.
  destruct (run_sound questions settings canVibrate clientThrows evs _
              (mount_sound questions settings canVibrate clientThrows))
    as (g & Hrun & _ & HB & _).
  exists g. split; [exact Hrun|].
  unfold render, currentQuestion.
  destruct (questions !! currentIndex g) as [q|] eqn:Hq.
  - apply lookup_lt_Some in Hq. split_and!; try done; lia.
  - apply lookup_ge_None in Hq. destruct HB as [?|[? _]]; [lia|done].
Qed.
